(** * messageobj.c: the printf-argument scanner and the message record

    A shallow embedding of [src/messageobj.c] (HTML Tidy's message
    object): [BuildArgArray], the getters of the record, the argument
    iterator and accessors, [tidyMessageCreateInitV] and the three
    entry points that call it, followed by the properties that the
    specification states about them and by further properties read off
    the code.  [tidyMessageRelease] is not embedded: the record of the
    embedding holds the strings and the array themselves, not pointers
    to blocks that could be freed.

    Conventions of the embedding.
    - C [int] counters ([number], [cn], [pos], [p - fmt]) are [Z]; they
      are bounded by the length of the format string, so no wrap-around
      arises and none is written.  Casts between integer types of
      different width or signedness are written out ([cast_int],
      [cast_uint]).
    - A [const char *] walking the format string is a [cursor]: the
      offset from [fmt] and the bytes from there to the end of the
      buffer, terminator included.  [*p++] on an exhausted cursor is a
      read past the buffer and is reported as a [fault], never given a
      value.
    - Undefined behaviour of the C program (reads or writes out of an
      array, [va_arg] with no matching argument) is an explicit
      [Faulted] outcome.
    - [assert] is active (the build is not an NDEBUG build). *)

From Stdlib Require Import ZArith Ascii String DecimalString.
From stdpp Require Import base tactics option list numbers strings.

Local Open Scope Z_scope.

(** ** Platform constants *)

(** The [sizeof] values and the [WIN32] switch that the source tests. *)
Record Platform := {
  sizeof_int : Z;
  sizeof_size_t : Z;
  sizeof_void_p : Z;
  WIN32 : bool
}.

Definition LP64 : Platform :=
  {| sizeof_int := 4; sizeof_size_t := 8; sizeof_void_p := 8; WIN32 := false |}.

Definition ILP32 : Platform :=
  {| sizeof_int := 4; sizeof_size_t := 4; sizeof_void_p := 4; WIN32 := false |}.

(** [sizeof(int16_t)], [sizeof(int32_t)], [sizeof(int64_t)]. *)
Definition sizeof_int16_t : Z := 2.
Definition sizeof_int32_t : Z := 4.
Definition sizeof_int64_t : Z := 8.

(** ** Outcomes *)

Inductive fault :=
| ReadPastBuffer      (* a read outside the array it indexes *)
| WritePastArray      (* a write outside the descriptor array *)
| VaArgUndefined      (* va_arg with no argument of the requested type *)
| IndeterminateRead   (* a union member read that was not the one written *)
| FuelExhausted.      (* the loop bound of the embedding was reached *)

Inductive outcome (A : Type) :=
| Normal (a : A)
| Faulted (f : fault).
Arguments Normal {A} a.
Arguments Faulted {A} f.

#[global] Instance outcome_ret : MRet outcome := fun _ a => Normal a.
#[global] Instance outcome_bind : MBind outcome := fun _ _ k m =>
  match m with
  | Normal a => k a
  | Faulted f => Faulted f
  end.

(** ** Data model *)

(** [TidyFormatParameterType], with the enumerators the source names. *)
Inductive TidyFormatParameterType :=
| tidyFormatType_INTN
| tidyFormatType_INT16
| tidyFormatType_INT32
| tidyFormatType_INT64
| tidyFormatType_UINTN
| tidyFormatType_UINT16
| tidyFormatType_UINT32
| tidyFormatType_UINT64
| tidyFormatType_STRING
| tidyFormatType_WSTRING
| tidyFormatType_INTSTR
| tidyFormatType_DOUBLE
| tidyFormatType_UNKNOWN.

#[global] Instance TidyFormatParameterType_eq_dec :
  EqDecision TidyFormatParameterType.
Proof. solve_decision. Defined.

(** A [double] is carried as its 64-bit pattern; no arithmetic is done on it. *)
Record double := Double { double_bits : Z }.

(** The union [u] of [struct printfArg]: the member last written and its
    value.  [u_uninit] is the union as [TidyDocAlloc] leaves it. *)
Inductive arg_union :=
| u_uninit
| u_i (v : Z)
| u_ui (v : Z)
| u_i32 (v : Z)
| u_ui32 (v : Z)
| u_ll (v : Z)
| u_ull (v : Z)
| u_d (v : double)
| u_s (v : string)
| u_ip (v : Z)
| u_ws (v : list Z).

Definition FORMAT_LENGTH : Z := 21.

(** [struct printfArg].  [format] holds the bytes [strncpy] wrote. *)
Record printfArg := {
  type : TidyFormatParameterType;
  formatStart : Z;
  formatLength : Z;
  format : list ascii;
  u : arg_union
}.

Definition set_type (t : TidyFormatParameterType) (a : printfArg) : printfArg :=
  {| type := t; formatStart := formatStart a; formatLength := formatLength a;
     format := format a; u := u a |}.

Definition set_span (start len : Z) (a : printfArg) : printfArg :=
  {| type := type a; formatStart := start; formatLength := len;
     format := format a; u := u a |}.

Definition set_format (f : list ascii) (a : printfArg) : printfArg :=
  {| type := type a; formatStart := formatStart a; formatLength := formatLength a;
     format := f; u := u a |}.

Definition set_u (v : arg_union) (a : printfArg) : printfArg :=
  {| type := type a; formatStart := formatStart a; formatLength := formatLength a;
     format := format a; u := v |}.

(** An element of the array after the loop [nas[i].type = tidyFormatType_UNKNOWN]. *)
Definition fresh_arg : printfArg :=
  {| type := tidyFormatType_UNKNOWN; formatStart := 0; formatLength := 0;
     format := []; u := u_uninit |}.

(** The variable arguments: each value with the type it may be fetched as. *)
Inductive va_value :=
| va_int (v : Z)
| va_unsigned_int (v : Z)
| va_int32_t (v : Z)
| va_uint32_t (v : Z)
| va_int64_t (v : Z)
| va_uint64_t (v : Z)
| va_char_p (s : string)
| va_WCHAR_p (ws : list Z)
| va_size_t_p (addr : Z)
| va_double (d : double).

Definition va_list := list va_value.

(** Allocator traffic of one call, oldest first. *)
Inductive heap_event :=
| EvAlloc (elements : Z)
| EvFree.

(** What [BuildArgArray] hands back: the returned pointer ([None] is
    [NULL]), the value left in [*rv], and the allocator calls made. *)
Record build_result := {
  returned : option (list printfArg);
  rv_out : Z;
  heap : list heap_event
}.

(** ** Characters and the cursor *)

Definition NUL : ascii := Ascii.zero.

(** [(c >= '0') && (c <= '9')] *)
Definition is_digit (c : ascii) : bool := (("0" <=? c) && (c <=? "9"))%char.

(** The pointer [p]: [p_off] is [p - fmt], [p_mem] the bytes from [p] on. *)
Record cursor := Cursor { p_off : Z; p_mem : list ascii }.

(** [c = *p++] *)
Definition deref_incr (p : cursor) : outcome (ascii * cursor) :=
  match p_mem p with
  | [] => Faulted ReadPastBuffer
  | c :: m => Normal (c, Cursor (p_off p + 1) m)
  end.

(** The buffer a format string occupies: its bytes and the terminator. *)
Definition c_buffer (fmt : string) : list ascii :=
  list_ascii_of_string fmt ++ [NUL].

(** ** First pass: counting *)

(** The first [while] of [BuildArgArray], from [p] with [number] so far.
    The result is the final [number] and, when a read left the buffer,
    the fault at which the loop stood. *)
Fixpoint count_pass (p : list ascii) (number : Z) : Z * option fault :=
  match p with
  | [] => (number, Some ReadPastBuffer)
  | c :: p =>
      if decide (c = NUL) then (number, None)
      else if decide (c ≠ "%"%char) then count_pass p number
      else
        match p with
        | [] => (number, Some ReadPastBuffer)
        | c :: p =>
            if decide (c = "%"%char) then count_pass p number
            else count_pass p (number + 1)
        end
  end.

(** ** Second pass: classification *)

(** [cn], the array [nas] and [*rv] while the second pass runs. *)
Record scan_state := ScanState { cn : Z; nas : list printfArg; rv : Z }.

Definition set_rv (v : Z) (st : scan_state) : scan_state :=
  ScanState (cn st) (nas st) v.

(** How one turn of the second loop ends: [break], or on to the next turn. *)
Inductive turn :=
| Break (st : scan_state)
| Continue (p : cursor) (st : scan_state).

(** [while ((c >= '0') && (c <= '9')) c = *p++;] *)
Fixpoint skip_digits (c : ascii) (off : Z) (mem : list ascii)
  : outcome (ascii * cursor) :=
  if is_digit c then
    match mem with
    | [] => Faulted ReadPastBuffer
    | c' :: mem' => skip_digits c' (off + 1) mem'
    end
  else Normal (c, Cursor off mem).

(** The size block: the length modifier read at [c], the type it
    selects, and the character and cursor after it. *)
Definition read_size (pl : Platform) (c : ascii) (p : cursor)
  : outcome (TidyFormatParameterType * ascii * cursor) :=
  if decide (c = "h"%char) then
    '(c, p) ← deref_incr p; mret (tidyFormatType_INT16, c, p)
  else if decide (c = "L"%char) then
    '(c, p) ← deref_incr p; mret (tidyFormatType_INT64, c, p)
  else if decide (c = "l"%char) then
    '(c, p) ← deref_incr p;
    if decide (c = "l"%char) then
      '(c, p) ← deref_incr p; mret (tidyFormatType_INT64, c, p)
    else mret (tidyFormatType_INT32, c, p)
  else if decide (c = "z"%char) then
    let t := if decide (sizeof_size_t pl = sizeof_int32_t) then tidyFormatType_INT32
             else if decide (sizeof_size_t pl = sizeof_int64_t) then tidyFormatType_INT64
             else tidyFormatType_UNKNOWN in
    '(c, p) ← deref_incr p; mret (t, c, p)
  else mret (tidyFormatType_INTN, c, p).

(** The type [case 'p'] assigns. *)
Definition pointer_type (pl : Platform) : TidyFormatParameterType :=
  if decide (sizeof_void_p pl = sizeof_int32_t) then tidyFormatType_UINT32
  else if decide (sizeof_void_p pl = sizeof_int64_t) then tidyFormatType_UINT64
  else if decide (sizeof_void_p pl = sizeof_int pl) then tidyFormatType_UINTN
  else tidyFormatType_UNKNOWN.

(** [switch (c)] of the format block: the type of [nas[cn]] after it,
    given the type [t] the size block left there. *)
Definition conversion_type (pl : Platform) (c : ascii)
    (t : TidyFormatParameterType) : TidyFormatParameterType :=
  if decide (c = "d"%char) then t
  else if decide (c = "c"%char) then t
  else if decide (c = "i"%char) then t
  else if decide (c = "o"%char) then t
  else if decide (c = "u"%char) then t
  else if decide (c = "x"%char) then t
  else if decide (c = "X"%char) then t
  else if decide (c = "e"%char) then tidyFormatType_DOUBLE
  else if decide (c = "f"%char) then tidyFormatType_DOUBLE
  else if decide (c = "g"%char) then tidyFormatType_DOUBLE
  else if decide (c = "p"%char) then pointer_type pl
  else if decide (c = "S"%char) then
    if WIN32 pl then tidyFormatType_WSTRING else tidyFormatType_UNKNOWN
  else if decide (c = "C"%char) then tidyFormatType_UNKNOWN
  else if decide (c = "E"%char) then tidyFormatType_UNKNOWN
  else if decide (c = "G"%char) then tidyFormatType_UNKNOWN
  else if decide (c = "s"%char) then tidyFormatType_STRING
  else if decide (c = "n"%char) then tidyFormatType_INTSTR
  else tidyFormatType_UNKNOWN.

(** [strncpy(dest, src, n)]: the [n] bytes written to [dest]. *)
Fixpoint strncpy (src : list ascii) (n : nat) : list ascii :=
  match n with
  | O => []
  | S n' =>
      match src with
      | [] => replicate n NUL
      | c :: src' =>
          if decide (c = NUL) then replicate n NUL else c :: strncpy src' n'
      end
  end.

(** [nas[cn] = f(nas[cn])], a write outside the array being a fault. *)
Definition update_current (f : printfArg → printfArg) (st : scan_state)
  : outcome scan_state :=
  if decide (0 ≤ cn st) then
    match nas st !! Z.to_nat (cn st) with
    | Some a => Normal (ScanState (cn st) (<[Z.to_nat (cn st) := f a]> (nas st)) (rv st))
    | None => Faulted WritePastArray
    end
  else Faulted WritePastArray.

(** [nas[cn].type] *)
Definition current_type (st : scan_state) : TidyFormatParameterType :=
  match nas st !! Z.to_nat (cn st) with
  | Some a => type a
  | None => tidyFormatType_UNKNOWN
  end.

(** The body of the second loop from [pos = p - fmt - 2] on: [c] is the
    character after the [%], [p] points behind it. *)
Definition classify_specifier (pl : Platform) (buf : list ascii)
    (c : ascii) (p : cursor) (st : scan_state) : outcome turn :=
  let pos := p_off p - 2 in
  (* width via parameter *)
  if decide (c = "*"%char) then mret (Break (set_rv (-1) st))
  else
    (* width field *)
    '(c, p) ← skip_digits c (p_off p) (p_mem p);
    (* precision *)
    prec ← (if decide (c = "."%char) then
              '(c, p) ← deref_incr p;
              if decide (c = "*"%char) then mret None
              else r ← skip_digits c (p_off p) (p_mem p); mret (Some r)
            else mret (Some (c, p)));
    match prec with
    | None => mret (Break (set_rv (-1) st))
    | Some (c, p) =>
        let st := ScanState (cn st + 1) (nas st) (rv st) in
        (* size *)
        st ← update_current (set_type tidyFormatType_INTN) st;
        '(t, c, p) ← read_size pl c p;
        st ← update_current (set_type t) st;
        (* format *)
        st ← update_current (set_type (conversion_type pl c t)) st;
        (* position and format *)
        st ← update_current (set_span pos (p_off p - pos)) st;
        if decide (FORMAT_LENGTH ≤ p_off p - pos) then
          mret (Break (set_rv (-1) st))
        else
          st ← update_current
                 (set_format (strncpy (drop (Z.to_nat pos) buf)
                                      (Z.to_nat (p_off p - pos)))) st;
          if decide (current_type st = tidyFormatType_UNKNOWN) then
            mret (Break (set_rv (-1) st))
          else mret (Continue p st)
    end.

(** The second [while] of [BuildArgArray].  [fuel] bounds the number of
    turns; [BuildArgArray] supplies the length of the buffer, which the
    loop cannot use up (lemma [classify_pass_safe]). *)
Fixpoint classify_pass (pl : Platform) (fuel : nat) (buf : list ascii)
    (p : cursor) (st : scan_state) : outcome scan_state :=
  match fuel with
  | O => Faulted FuelExhausted
  | S fuel =>
      '(c, p) ← deref_incr p;
      if decide (c = NUL) then mret st
      else if decide (c ≠ "%"%char) then classify_pass pl fuel buf p st
      else
        '(c, p) ← deref_incr p;
        if decide (c = "%"%char) then classify_pass pl fuel buf p st
        else
          r ← classify_specifier pl buf c p st;
          match r with
          | Break st => mret st
          | Continue p st => classify_pass pl fuel buf p st
          end
  end.

(** ** Third pass: fetching the values *)

(** What one turn of the third loop does with [nas[cn]]: skip it, store
    the fetched value, or give up ([default:]). *)
Inductive fetched :=
| Skipped
| Stored (a : printfArg) (ap : va_list)
| GaveUp.

Definition consume_one (pl : Platform) (a : printfArg) (ap : va_list)
  : outcome fetched :=
  if decide (type a = tidyFormatType_UNKNOWN) then mret Skipped
  else
    match type a with
    | tidyFormatType_INT16 | tidyFormatType_UINT16 | tidyFormatType_INTN =>
        match ap with
        | va_int v :: ap => mret (Stored (set_u (u_i v) a) ap)
        | _ => Faulted VaArgUndefined
        end
    | tidyFormatType_UINTN =>
        match ap with
        | va_unsigned_int v :: ap => mret (Stored (set_u (u_ui v) a) ap)
        | _ => Faulted VaArgUndefined
        end
    | tidyFormatType_INT32 =>
        match ap with
        | va_int32_t v :: ap => mret (Stored (set_u (u_i32 v) a) ap)
        | _ => Faulted VaArgUndefined
        end
    | tidyFormatType_UINT32 =>
        match ap with
        | va_uint32_t v :: ap => mret (Stored (set_u (u_ui32 v) a) ap)
        | _ => Faulted VaArgUndefined
        end
    | tidyFormatType_INT64 =>
        match ap with
        | va_int64_t v :: ap => mret (Stored (set_u (u_ll v) a) ap)
        | _ => Faulted VaArgUndefined
        end
    | tidyFormatType_UINT64 =>
        match ap with
        | va_uint64_t v :: ap => mret (Stored (set_u (u_ull v) a) ap)
        | _ => Faulted VaArgUndefined
        end
    | tidyFormatType_STRING =>
        match ap with
        | va_char_p s :: ap => mret (Stored (set_u (u_s s) a) ap)
        | _ => Faulted VaArgUndefined
        end
    | tidyFormatType_WSTRING =>
        if WIN32 pl then
          match ap with
          | va_WCHAR_p ws :: ap => mret (Stored (set_u (u_ws ws) a) ap)
          | _ => Faulted VaArgUndefined
          end
        else mret GaveUp
    | tidyFormatType_INTSTR =>
        match ap with
        | va_size_t_p addr :: ap => mret (Stored (set_u (u_ip addr) a) ap)
        | _ => Faulted VaArgUndefined
        end
    | tidyFormatType_DOUBLE =>
        match ap with
        | va_double d :: ap => mret (Stored (set_u (u_d d) a) ap)
        | _ => Faulted VaArgUndefined
        end
    | tidyFormatType_UNKNOWN => mret GaveUp
    end.

(** The third [while]: [done] is [nas[0..cn-1]], [todo] is [nas[cn..]].
    [None] is the [default:] exit (array freed, [*rv = -1]). *)
Fixpoint consume_pass (pl : Platform) (done todo : list printfArg)
    (ap : va_list) : outcome (option (list printfArg)) :=
  match todo with
  | [] => mret (Some done)
  | a :: todo =>
      r ← consume_one pl a ap;
      match r with
      | Skipped => consume_pass pl (done ++ [a]) todo ap
      | Stored a ap => consume_pass pl (done ++ [a]) todo ap
      | GaveUp => mret None
      end
  end.

(** ** BuildArgArray *)

(** [TidyDocAlloc] is the document's allocator; [alloc n] tells whether
    the request for [n] descriptors is served. *)
Definition BuildArgArray (pl : Platform) (alloc : Z → bool)
    (fmt : string) (ap : va_list) : outcome build_result :=
  let buf := c_buffer fmt in
  (* first pass: determine number of valid % to allocate space. *)
  match count_pass buf 0 with
  | (_, Some f) => Faulted f
  | (number, None) =>
      if decide (number = 0) then
        mret {| returned := None; rv_out := 0; heap := [] |}
      else if negb (alloc number) then
        mret {| returned := None; rv_out := -1; heap := [EvAlloc number] |}
      else
        let arr := replicate (Z.to_nat number) fresh_arg in
        (* second pass: set nas[].type and location. *)
        st ← classify_pass pl (length buf) buf (Cursor 0 buf) (ScanState (-1) arr 0);
        (* third pass: fill the nas[cn].ap *)
        if decide (rv st < 0) then
          mret {| returned := None; rv_out := rv st;
                  heap := [EvAlloc number; EvFree] |}
        else
          r ← consume_pass pl [] (nas st) ap;
          match r with
          | None =>
              mret {| returned := None; rv_out := -1;
                      heap := [EvAlloc number; EvFree] |}
          | Some arr =>
              mret {| returned := Some arr; rv_out := number;
                      heap := [EvAlloc number] |}
          end
  end.

(** ** The message record *)

(** [Bool] of the Tidy platform header: [typedef enum { no, yes } Bool]. *)
Inductive Bool := no | yes.

#[global] Instance Bool_eq_dec : EqDecision Bool.
Proof. solve_decision. Defined.

Definition Z_of_Bool (b : Bool) : Z := match b with no => 0 | yes => 1 end.
Definition Bool_of_Z (z : Z) : Bool := if decide (z = 0) then no else yes.

(** [a & b] on two [Bool]s, stored back into a [Bool]. *)
Definition Bool_band (a b : Bool) : Bool :=
  Bool_of_Z (Z.land (Z_of_Bool a) (Z_of_Bool b)).

(** [TidyMessageImpl].  The document and node references are left out:
    nothing below reads them. *)
Record TidyMessageImpl := {
  code : Z;
  line : Z;
  column : Z;
  level : Z;
  allowMessage : Bool;
  argcount : Z;
  arguments : option (list printfArg);
  messageKey : string;
  messageFormatDefault : string;
  messageFormat : string;
  messageDefault : string;
  message : string;
  messagePosDefault : string;
  messagePos : string;
  messagePrefixDefault : string;
  messagePrefix : string;
  messageOutputDefault : string;
  messageOutput : string
}.

Definition set_allowMessage (b : Bool) (m : TidyMessageImpl) : TidyMessageImpl :=
  {| code := code m; line := line m; column := column m; level := level m;
     allowMessage := b;
     argcount := argcount m; arguments := arguments m;
     messageKey := messageKey m;
     messageFormatDefault := messageFormatDefault m;
     messageFormat := messageFormat m;
     messageDefault := messageDefault m; message := message m;
     messagePosDefault := messagePosDefault m; messagePos := messagePos m;
     messagePrefixDefault := messagePrefixDefault m;
     messagePrefix := messagePrefix m;
     messageOutputDefault := messageOutputDefault m;
     messageOutput := messageOutput m |}.

(** ** Modern message callback functions *)

Definition getMessageLevel (m : TidyMessageImpl) : Z := level m.
Definition getMessageFormatDefault (m : TidyMessageImpl) : string :=
  messageFormatDefault m.
Definition getMessageFormat (m : TidyMessageImpl) : string := messageFormat m.
Definition getMessageDefault (m : TidyMessageImpl) : string := messageDefault m.
Definition getMessagePrefixDefault (m : TidyMessageImpl) : string :=
  messagePrefixDefault m.
Definition getMessageOutputDefault (m : TidyMessageImpl) : string :=
  messageOutputDefault m.

(** ** Message argument interrogation *)

(** What an accessor call comes to: a value, a failed [assert], or
    undefined behaviour. *)
Inductive access (A : Type) :=
| Returned (a : A)
| AssertionFailed
| Undefined (f : fault).
Arguments Returned {A} a.
Arguments AssertionFailed {A}.
Arguments Undefined {A} f.

#[global] Instance access_ret : MRet access := fun _ a => Returned a.
#[global] Instance access_bind : MBind access := fun _ _ k m =>
  match m with
  | Returned a => k a
  | AssertionFailed => AssertionFailed
  | Undefined f => Undefined f
  end.

(** [assert(e)] *)
Definition assert (e : bool) : access unit :=
  if e then Returned tt else AssertionFailed.

(** [message.arguments[argNum]] *)
Definition argument_at (m : TidyMessageImpl) (argNum : Z) : access printfArg :=
  match arguments m with
  | None => Undefined ReadPastBuffer
  | Some arr =>
      if decide (0 ≤ argNum) then
        match arr !! Z.to_nat argNum with
        | Some a => Returned a
        | None => Undefined ReadPastBuffer
        end
      else Undefined ReadPastBuffer
  end.

(** Reads of the union members. *)
Definition read_i (a : printfArg) : access Z :=
  match u a with u_i v => Returned v | _ => Undefined IndeterminateRead end.
Definition read_ui (a : printfArg) : access Z :=
  match u a with u_ui v => Returned v | _ => Undefined IndeterminateRead end.
Definition read_i32 (a : printfArg) : access Z :=
  match u a with u_i32 v => Returned v | _ => Undefined IndeterminateRead end.
Definition read_ui32 (a : printfArg) : access Z :=
  match u a with u_ui32 v => Returned v | _ => Undefined IndeterminateRead end.
Definition read_ll (a : printfArg) : access Z :=
  match u a with u_ll v => Returned v | _ => Undefined IndeterminateRead end.
Definition read_ull (a : printfArg) : access Z :=
  match u a with u_ull v => Returned v | _ => Undefined IndeterminateRead end.
Definition read_d (a : printfArg) : access double :=
  match u a with u_d v => Returned v | _ => Undefined IndeterminateRead end.
Definition read_s (a : printfArg) : access string :=
  match u a with u_s v => Returned v | _ => Undefined IndeterminateRead end.

Section Accessors.

Variable pl : Platform.

Definition int_bits : Z := 8 * sizeof_int pl.
Definition INT_MAX : Z := 2 ^ (int_bits - 1) - 1.

(** [(uint)v]: reduction modulo [2^int_bits]. *)
Definition cast_uint (v : Z) : Z := v mod 2 ^ int_bits.

(** [(int)v]: the value of the same bit pattern in two's complement. *)
Definition cast_int (v : Z) : Z :=
  (v + 2 ^ (int_bits - 1)) mod 2 ^ int_bits - 2 ^ (int_bits - 1).

(** The argument [arg] is the zero-based index the iterator handed
    out; [argNum] is [(int)*arg]. *)

Definition getArgType (m : TidyMessageImpl) (argNum : Z)
  : access TidyFormatParameterType :=
  _ ← assert (bool_decide (argNum ≤ argcount m));
  a ← argument_at m argNum;
  mret (type a).

Definition getArgFormat (m : TidyMessageImpl) (argNum : Z)
  : access (list ascii) :=
  _ ← assert (bool_decide (argNum ≤ argcount m));
  a ← argument_at m argNum;
  mret (format a).

Definition getArgValueString (m : TidyMessageImpl) (argNum : Z)
  : access string :=
  _ ← assert (bool_decide (argNum ≤ argcount m));
  a ← argument_at m argNum;
  _ ← assert (bool_decide (type a = tidyFormatType_STRING));
  read_s a.

(** The [switch] of [getArgValueUInt]: [result] and [typeIsValid]. *)
Definition uint_switch (a : printfArg) : access (Z * Bool) :=
  match type a with
  | tidyFormatType_UINTN =>
      v ← read_ui a; mret (cast_uint v, yes)
  | tidyFormatType_UINT16 =>
      if decide (sizeof_int pl ≤ sizeof_int16_t) then
        v ← read_i a; mret (cast_uint v, yes)
      else mret (0, no)
  | tidyFormatType_UINT32 =>
      if decide (sizeof_int pl ≤ sizeof_int32_t) then
        v ← read_ui32 a; mret (cast_uint v, yes)
      else mret (0, no)
  | tidyFormatType_UINT64 =>
      if decide (sizeof_int pl ≤ sizeof_int64_t) then
        v ← read_ull a; mret (cast_uint v, yes)
      else mret (0, no)
  | _ => mret (0, no)
  end.

Definition getArgValueUInt (m : TidyMessageImpl) (argNum : Z) : access Z :=
  _ ← assert (bool_decide (argNum ≤ argcount m));
  a ← argument_at m argNum;
  '(result, typeIsValid) ← uint_switch a;
  _ ← assert (bool_decide (typeIsValid = yes));
  mret result.

(** The [switch] of [getArgValueInt]: [result] and [typeIsValid]. *)
Definition int_switch (a : printfArg) : access (Z * Bool) :=
  match type a with
  | tidyFormatType_INTN =>
      v ← read_i a; mret (cast_int v, yes)
  | tidyFormatType_INT16 =>
      if decide (sizeof_int pl ≤ sizeof_int16_t) then
        v ← read_i a; mret (cast_int v, yes)
      else mret (0, no)
  | tidyFormatType_INT32 =>
      if decide (sizeof_int pl ≤ sizeof_int32_t) then
        v ← read_i32 a; mret (cast_int v, yes)
      else mret (0, no)
  | tidyFormatType_INT64 =>
      if decide (sizeof_int pl ≤ sizeof_int64_t) then
        v ← read_ll a; mret (cast_int v, yes)
      else mret (0, no)
  | tidyFormatType_UINTN =>
      v ← read_ui a;
      if decide (v ≤ INT_MAX) then mret (cast_int v, yes) else mret (0, no)
  | tidyFormatType_UINT16 =>
      if decide (sizeof_int pl ≤ sizeof_int16_t) then
        v ← read_i a;
        if decide (v ≤ INT_MAX) then mret (cast_int v, yes) else mret (0, no)
      else mret (0, no)
  | tidyFormatType_UINT32 =>
      if decide (sizeof_int pl ≤ sizeof_int32_t) then
        v ← read_ui32 a;
        if decide (v ≤ INT_MAX) then mret (cast_int v, yes) else mret (0, no)
      else mret (0, no)
  | tidyFormatType_UINT64 =>
      if decide (sizeof_int pl ≤ sizeof_int64_t) then
        v ← read_ull a;
        if decide (v ≤ INT_MAX) then mret (cast_int v, yes) else mret (0, no)
      else mret (0, no)
  | _ => mret (0, no)
  end.

Definition getArgValueInt (m : TidyMessageImpl) (argNum : Z) : access Z :=
  _ ← assert (bool_decide (argNum ≤ argcount m));
  a ← argument_at m argNum;
  '(result, typeIsValid) ← int_switch a;
  _ ← assert (bool_decide (typeIsValid = yes));
  mret result.

Definition getArgValueDouble (m : TidyMessageImpl) (argNum : Z)
  : access double :=
  _ ← assert (bool_decide (argNum ≤ argcount m));
  a ← argument_at m argNum;
  _ ← assert (bool_decide (type a = tidyFormatType_DOUBLE));
  read_d a.

End Accessors.

(** ** The argument iterator *)

Section Iteration.

Variable pl : Platform.

Definition size_t_bits : Z := 8 * sizeof_size_t pl.

(** [(size_t)v]: reduction modulo [2^size_t_bits]. *)
Definition cast_size_t (v : Z) : Z := v mod 2 ^ size_t_bits.

(** A [TidyIterator] and a [TidyMessageArgument] are carried as the
    [size_t] they are cast from and to. *)

Definition getMessageArguments (m : TidyMessageImpl) : Z :=
  if decide (argcount m > 0) then cast_size_t 1 else cast_size_t 0.

(** [getNextMessageArgument]: the argument returned and the value left
    in [*iter].  The caller passes the address of its iterator, so
    [assert( iter != NULL )] holds.  In [itemIndex <= message.argcount]
    a [size_t] meets an [int]: the [int] is converted to [size_t]
    ([size_t] is taken to be no narrower than [int]). *)
Definition getNextMessageArgument (m : TidyMessageImpl) (iter : Z) : Z * Z :=
  let item := 0 in
  let itemIndex := cast_size_t iter in
  let '(item, itemIndex) :=
    if decide (itemIndex >= 1 ∧ itemIndex ≤ cast_size_t (argcount m)) then
      (cast_size_t (itemIndex - 1), cast_size_t (itemIndex + 1))
    else (item, itemIndex) in
  (item,
   if decide (itemIndex ≤ cast_size_t (argcount m)) then itemIndex
   else cast_size_t 0).

End Iteration.

(** ** Bounded formatting *)

(** [%d] of a C [int]. *)
Definition decimal (v : Z) : string := NilZero.string_of_int (Z.to_int v).

(** Modelled from the spec: the formatting engine behind [tmbvsnprintf]
    and [tmbsnprintf] (tmbstr.c is not under src/), "conventional
    bounded formatting semantics".  The directives the assembler's own
    patterns use are rendered: [%%], [%s], [%d] and [%.0s] (a string cut
    to no characters); any other character is copied through.  A
    directive with no argument of its type is undefined behaviour.
    A directive outside these four is not rendered and takes no
    argument; what [tidyMessageCreateInitV] comes to on a format that
    has one before a rendered directive is therefore not that of the
    program, and no property below concludes a fault of creation. *)
Fixpoint vformat (fmt : list ascii) (args : va_list) : outcome string :=
  match fmt with
  | [] => mret ""%string
  | c :: rest =>
      if decide (c ≠ "%"%char) then
        s ← vformat rest args; mret (String c s)
      else
        match rest with
        | [] => mret (String c ""%string)
        | d :: rest' =>
            if decide (d = "%"%char) then
              s ← vformat rest' args; mret (String "%"%char s)
            else if decide (d = "s"%char) then
              match args with
              | va_char_p a :: args => s ← vformat rest' args; mret (a +:+ s)
              | _ => Faulted VaArgUndefined
              end
            else if decide (d = "d"%char) then
              match args with
              | va_int v :: args => s ← vformat rest' args; mret (decimal v +:+ s)
              | _ => Faulted VaArgUndefined
              end
            else
              match rest' with
              | z :: e :: rest'' =>
                  if decide (d = "."%char ∧ z = "0"%char ∧ e = "s"%char) then
                    match args with
                    | va_char_p _ :: args => vformat rest'' args
                    | _ => Faulted VaArgUndefined
                    end
                  else s ← vformat rest args; mret (String c s)
              | _ => s ← vformat rest args; mret (String c s)
              end
        end
  end.

(** The first [n] characters of [s]. *)
Definition truncate (n : nat) (s : string) : string := substring 0 n s.

(** Modelled from the spec: [tmbvsnprintf(buffer, count, format, args)]
    (tmbstr.c is not under src/): the rendering of [format], cut to
    what a buffer of [count] bytes holds before its terminator.  The
    result is the string left in [buffer]. *)
Definition tmbvsnprintf (count : Z) (fmt : string) (args : va_list)
  : outcome string :=
  s ← vformat (list_ascii_of_string fmt) args;
  mret (truncate (Z.to_nat (count - 1)) s).

(** ** Message creation *)

(** What the message module takes from the rest of the library: the
    enumerator [TidyFatal] of [TidyReportLevel], the string key
    [LINE_COLUMN_STRING], and the localization tables. *)
Record Externals := {
  TidyFatal : Z;
  LINE_COLUMN_STRING : Z;
  tidyDefaultString : Z → string;
  tidyLocalizedString : Z → string;
  tidyErrorCodeAsKey : Z → string
}.

(** The part of [TidyDocImpl] that message creation reads: the
    allocator, the two Emacs options and the three callbacks (a null
    callback pointer is [None]). *)
Record TidyDocImpl := {
  TidyDocAlloc_serves : Z → bool;
  cfg_TidyEmacs : bool;
  cfg_TidyEmacsFile : option string;
  reportFilter : option (Z → Z → Z → string → Bool);
  reportCallback : option (Z → Z → Z → string → va_list → Bool);
  messageCallback : option (TidyMessageImpl → Bool)
}.

(** A callback invocation and what it answered. *)
Inductive callback_event :=
| reportFilter_called (verdict : Bool)
| reportCallback_called (verdict : Bool)
| messageCallback_called (verdict : Bool).

Definition sizeMessageBuf : Z := 2048.

Section Creation.

Variable pl : Platform.
Variable ext : Externals.

(** The choice of [pattern]. *)
Definition choose_pattern (line column level : Z) : string :=
  let pattern :=
    if decide (line > 0 ∧ column > 0) then "%s%s%s"%string
    else "%.0s%s%s"%string in
  if decide (level > TidyFatal ext) then "%.0s%.0s%s"%string else pattern.

(** [if ( (result->level <= TidyFatal) && doc->reportFilter ) ...] *)
Definition dispatch_reportFilter (doc : TidyDocImpl)
    (r : TidyMessageImpl * list callback_event)
  : TidyMessageImpl * list callback_event :=
  let '(result, log) := r in
  match reportFilter doc with
  | Some f =>
      if decide (level result ≤ TidyFatal ext) then
        let v := f (level result) (line result) (column result)
                   (messageOutput result) in
        (set_allowMessage (Bool_band (allowMessage result) v) result,
         log ++ [reportFilter_called v])
      else (result, log)
  | None => (result, log)
  end.

(** [if ( (result->level <= TidyFatal) && doc->reportCallback ) ...] *)
Definition dispatch_reportCallback (doc : TidyDocImpl) (args : va_list)
    (r : TidyMessageImpl * list callback_event)
  : TidyMessageImpl * list callback_event :=
  let '(result, log) := r in
  match reportCallback doc with
  | Some f =>
      if decide (level result ≤ TidyFatal ext) then
        let v := f (level result) (line result) (column result)
                   (messageKey result) args in
        (set_allowMessage (Bool_band (allowMessage result) v) result,
         log ++ [reportCallback_called v])
      else (result, log)
  | None => (result, log)
  end.

(** [if ( doc->messageCallback ) ...] *)
Definition dispatch_messageCallback (doc : TidyDocImpl)
    (r : TidyMessageImpl * list callback_event)
  : TidyMessageImpl * list callback_event :=
  let '(result, log) := r in
  match messageCallback doc with
  | Some f =>
      let v := f result in
      (set_allowMessage (Bool_band (allowMessage result) v) result,
       log ++ [messageCallback_called v])
  | None => (result, log)
  end.

(** [tidyMessageCreateInitV]: the record returned and the callbacks
    invoked on the way, oldest first. *)
Definition tidyMessageCreateInitV (doc : TidyDocImpl)
    (code line column level : Z) (args : va_list)
  : outcome (TidyMessageImpl * list callback_event) :=
  (* Things we create... *)
  built ← BuildArgArray pl (TidyDocAlloc_serves doc)
            (tidyDefaultString ext code) args;
  let messageKey := tidyErrorCodeAsKey ext code in
  let messageFormatDefault := tidyDefaultString ext code in
  let messageFormat := tidyLocalizedString ext code in
  messageDefault ← tmbvsnprintf sizeMessageBuf messageFormatDefault args;
  message ← tmbvsnprintf sizeMessageBuf messageFormat args;
  '(messagePosDefault, messagePos) ←
    match cfg_TidyEmacs doc, cfg_TidyEmacsFile doc with
    | true, Some file =>
        (* Change formatting to be parsable by GNU Emacs *)
        a ← tmbvsnprintf sizeMessageBuf "%s:%d:%d: "
              [va_char_p file; va_int line; va_int column];
        b ← tmbvsnprintf sizeMessageBuf "%s:%d:%d: "
              [va_char_p file; va_int line; va_int column];
        mret (a, b)
    | _, _ =>
        (* traditional format *)
        a ← tmbvsnprintf sizeMessageBuf
              (tidyDefaultString ext (LINE_COLUMN_STRING ext))
              [va_int line; va_int column];
        b ← tmbvsnprintf sizeMessageBuf
              (tidyLocalizedString ext (LINE_COLUMN_STRING ext))
              [va_int line; va_int column];
        mret (a, b)
    end;
  let messagePrefixDefault := tidyDefaultString ext level in
  let messagePrefix := tidyLocalizedString ext level in
  let pattern := choose_pattern line column level in
  messageOutputDefault ←
    tmbvsnprintf sizeMessageBuf pattern
      [va_char_p messagePosDefault; va_char_p messagePrefixDefault;
       va_char_p messageDefault];
  messageOutput ←
    tmbvsnprintf sizeMessageBuf pattern
      [va_char_p messagePos; va_char_p messagePrefix; va_char_p message];
  let result :=
    {| code := code; line := line; column := column; level := level;
       allowMessage := yes;
       argcount := rv_out built; arguments := returned built;
       messageKey := messageKey;
       messageFormatDefault := messageFormatDefault;
       messageFormat := messageFormat;
       messageDefault := messageDefault; message := message;
       messagePosDefault := messagePosDefault; messagePos := messagePos;
       messagePrefixDefault := messagePrefixDefault;
       messagePrefix := messagePrefix;
       messageOutputDefault := messageOutputDefault;
       messageOutput := messageOutput |} in
  mret (dispatch_messageCallback doc
          (dispatch_reportCallback doc args
             (dispatch_reportFilter doc (result, [])))).

End Creation.

(** ** The creation entry points *)


Section EntryPoints.

Variable pl : Platform.
Variable ext : Externals.

(** The variable arguments ([...], [va_start]) are the list [args].
    [lexer] is [doc->lexer] and [node] the node pointer, a null pointer
    being [None]. *)




End EntryPoints.

(** * Format strings as the specification describes them *)

(** The definitions of this part follow the wording of the
    specification (sections 4.1 and 6), not the source; the theorems
    compare [BuildArgArray] with them. *)

Inductive length_modifier :=
| no_modifier | mod_h | mod_l | mod_ll | mod_L | mod_z.

Inductive conversion :=
| conv_d | conv_i | conv_o | conv_u | conv_x | conv_X | conv_c
| conv_e | conv_f | conv_g
| conv_p | conv_s | conv_n.

(** A conversion specifier: fixed width and precision digit runs, a
    length modifier and the conversion character. *)
Record specifier := {
  width : list ascii;
  precision : option (list ascii);
  modifier : length_modifier;
  conv : conversion
}.

(** What a format string is made of: ordinary text, the escape [%%],
    and conversion specifiers. *)
Inductive piece :=
| Text (c : ascii)
| Escape
| Spec (s : specifier).

Definition modifier_text (m : length_modifier) : list ascii :=
  match m with
  | no_modifier => []
  | mod_h => ["h"]
  | mod_l => ["l"]
  | mod_ll => ["l"; "l"]
  | mod_L => ["L"]
  | mod_z => ["z"]
  end%char.

Definition conversion_char (c : conversion) : ascii :=
  match c with
  | conv_d => "d" | conv_i => "i" | conv_o => "o" | conv_u => "u"
  | conv_x => "x" | conv_X => "X" | conv_c => "c"
  | conv_e => "e" | conv_f => "f" | conv_g => "g"
  | conv_p => "p" | conv_s => "s" | conv_n => "n"
  end%char.

Definition precision_text (p : option (list ascii)) : list ascii :=
  match p with
  | Some ds => "."%char :: ds
  | None => []
  end.

(** The characters of a specifier after its [%]. *)
Definition specifier_body (s : specifier) : list ascii :=
  width s ++ precision_text (precision s) ++ modifier_text (modifier s)
  ++ [conversion_char (conv s)].

Definition piece_text (p : piece) : list ascii :=
  match p with
  | Text c => [c]
  | Escape => ["%"; "%"]%char
  | Spec s => "%"%char :: specifier_body s
  end.

Definition render (ps : list piece) : list ascii :=
  concat (map piece_text ps).

(** The specifiers of a format string, left to right. *)
Definition specifiers (ps : list piece) : list specifier :=
  omap (λ p, match p with Spec s => Some s | _ => None end) ps.

(** The mapping table of section 4.1. *)

(** "integer of the size selected above (default native-width signed if
    no modifier)": [h] 16-bit, [l] 32-bit, [ll] and [L] 64-bit, [z]
    pointer-sized (32 or 64, or unknown if neither). *)
Definition sized_integer (pl : Platform) (m : length_modifier)
  : TidyFormatParameterType :=
  match m with
  | no_modifier => tidyFormatType_INTN
  | mod_h => tidyFormatType_INT16
  | mod_l => tidyFormatType_INT32
  | mod_ll => tidyFormatType_INT64
  | mod_L => tidyFormatType_INT64
  | mod_z =>
      if decide (sizeof_size_t pl = 4) then tidyFormatType_INT32
      else if decide (sizeof_size_t pl = 8) then tidyFormatType_INT64
      else tidyFormatType_UNKNOWN
  end.

(** "unsigned integer sized to match native pointer width". *)
Definition pointer_sized_unsigned (pl : Platform) : TidyFormatParameterType :=
  if decide (sizeof_void_p pl = 4) then tidyFormatType_UINT32
  else if decide (sizeof_void_p pl = 8) then tidyFormatType_UINT64
  else if decide (sizeof_void_p pl = sizeof_int pl) then tidyFormatType_UINTN
  else tidyFormatType_UNKNOWN.

Definition table_kind (pl : Platform) (s : specifier) : TidyFormatParameterType :=
  match conv s with
  | conv_d | conv_i | conv_o | conv_u | conv_x | conv_X | conv_c =>
      sized_integer pl (modifier s)
  | conv_e | conv_f | conv_g => tidyFormatType_DOUBLE
  | conv_p => pointer_sized_unsigned pl
  | conv_s => tidyFormatType_STRING
  | conv_n => tidyFormatType_INTSTR
  end.

(** A specifier is supported when its width and precision are digit
    runs, its text is shorter than the fixed maximum, and the table
    gives it a kind. *)
Definition supported (pl : Platform) (s : specifier) : bool :=
  forallb is_digit (width s)
  && match precision s with Some ds => forallb is_digit ds | None => true end
  && bool_decide (Z.of_nat (length (piece_text (Spec s))) < FORMAT_LENGTH)
  && bool_decide (table_kind pl s ≠ tidyFormatType_UNKNOWN).

(** Ordinary text is any character but [%] and the terminator. *)
Definition well_formed (pl : Platform) (p : piece) : bool :=
  match p with
  | Text c => bool_decide (c ≠ "%"%char) && bool_decide (c ≠ NUL)
  | Escape => true
  | Spec s => supported pl s
  end.

(** The argument source holds, in order, a value of the type each kind
    is fetched as (it may hold more). *)
Definition fetchable (k : TidyFormatParameterType) (v : va_value) : bool :=
  match k, v with
  | tidyFormatType_INTN, va_int _
  | tidyFormatType_INT16, va_int _
  | tidyFormatType_UINT16, va_int _
  | tidyFormatType_UINTN, va_unsigned_int _
  | tidyFormatType_INT32, va_int32_t _
  | tidyFormatType_UINT32, va_uint32_t _
  | tidyFormatType_INT64, va_int64_t _
  | tidyFormatType_UINT64, va_uint64_t _
  | tidyFormatType_STRING, va_char_p _
  | tidyFormatType_INTSTR, va_size_t_p _
  | tidyFormatType_DOUBLE, va_double _ => true
  | _, _ => false
  end.

Fixpoint supplies (ap : va_list) (ks : list TidyFormatParameterType) : bool :=
  match ks with
  | [] => true
  | k :: ks =>
      match ap with
      | v :: ap => fetchable k v && supplies ap ks
      | [] => false
      end
  end.

(** A format string "whose only %-introduced sequences are %% escapes". *)
Fixpoint only_escapes (s : list ascii) : bool :=
  match s with
  | [] => true
  | c :: s' =>
      if decide (c = "%"%char) then
        match s' with
        | c' :: s'' => if decide (c' = "%"%char) then only_escapes s'' else false
        | [] => false
        end
      else only_escapes s'
  end.

(** A format string "whose final character is a single unescaped %":
    reading left to right, a [%] takes the character after it with it,
    and the last [%] has none to take. *)
Fixpoint lone_percent_at_end (s : list ascii) : bool :=
  match s with
  | [] => false
  | c :: s' =>
      if decide (c = "%"%char) then
        match s' with
        | _ :: s'' => lone_percent_at_end s''
        | [] => true
        end
      else lone_percent_at_end s'
  end.

(** A width or precision "given as a run-time value": [%*], or [%],
    width digits and [.*]. *)
Inductive star_form :=
| star_width
| star_precision (width_digits : list ascii).

Definition star_text (f : star_form) : list ascii :=
  match f with
  | star_width => ["%"; "*"]%char
  | star_precision ds => "%"%char :: ds ++ ["."; "*"]%char
  end.

Definition star_digits (f : star_form) : bool :=
  match f with
  | star_width => true
  | star_precision ds => forallb is_digit ds
  end.

(** The input format language of section 6 puts flags before the
    width: a directive is a specifier of the kind above with the flag
    characters of printf in front of its width. *)
Inductive flag := flag_minus | flag_plus | flag_space | flag_hash | flag_zero.

Definition flag_char (f : flag) : ascii :=
  match f with
  | flag_minus => "-" | flag_plus => "+" | flag_space => " "
  | flag_hash => "#" | flag_zero => "0"
  end%char.

Record directive := { flags : list flag; rest_of_directive : specifier }.

Definition directive_text (d : directive) : list ascii :=
  "%"%char :: map flag_char (flags d) ++ specifier_body (rest_of_directive d).

(** A directive uses none of the features that the specification calls
    unsupported when its width and precision are fixed digit runs (no
    [*]); the conversions of [conversion] leave the wide string out. *)
Definition fixed_literals (d : directive) : bool :=
  forallb is_digit (width (rest_of_directive d))
  && match precision (rest_of_directive d) with
     | Some ds => forallb is_digit ds
     | None => true
     end.

(** [%-5d]: left-justified, width 5, native integer. *)
Definition left_justified : directive :=
  {| flags := [flag_minus];
     rest_of_directive := {| width := ["5"%char]; precision := None;
                             modifier := no_modifier; conv := conv_d |} |}.

(** * Observers as the specification describes them *)

Inductive observer :=
| legacy_boolean_filter
| legacy_key_filter
| record_observer.

#[global] Instance observer_eq_dec : EqDecision observer.
Proof. solve_decision. Defined.


Definition verdict (e : callback_event) : Bool :=
  match e with
  | reportFilter_called v => v
  | reportCallback_called v => v
  | messageCallback_called v => v
  end.







(** * Sample collaborators *)

(** A localization table with three diagnostics (codes 600 to 602),
    the line/column template (code 500) and the severity prefixes;
    level 351 is a warning, 356 the last normal level, 357 a dialogue
    level. *)
Definition sample_ext : Externals :=
  {| TidyFatal := 356;
     LINE_COLUMN_STRING := 500;
     tidyDefaultString := λ c,
       if decide (c = 500) then "line %d column %d - "
       else if decide (c = 351) then "Warning: "
       else if decide (c = 357) then "Info: "
       else if decide (c = 601) then "%hd rows"
       else if decide (c = 602) then "%lld bytes"
       else "missing %s"%string;
     tidyLocalizedString := λ c,
       if decide (c = 500) then "Zeile %d Spalte %d - "
       else if decide (c = 351) then "Warnung: "
       else if decide (c = 357) then "Info: "
       else if decide (c = 601) then "%hd Zeilen"
       else if decide (c = 602) then "%lld Bytes"
       else "%s fehlt"%string;
     tidyErrorCodeAsKey := λ _, "MISSING_ATTRIBUTE"%string |}.

(** A document with no callbacks, and one with all three; the legacy
    filter of the latter suppresses every message. *)
Definition quiet_doc : TidyDocImpl :=
  {| TidyDocAlloc_serves := λ _, true;
     cfg_TidyEmacs := false;
     cfg_TidyEmacsFile := None;
     reportFilter := None;
     reportCallback := None;
     messageCallback := None |}.


(** * Descriptors as the specification describes them *)

(** The descriptor of the specifier [s] found at offset [pos] of the
    format string held in [buf]: the kind of the mapping table and the
    span of the specifier's text.  The value is that of [a]. *)
Definition described (pl : Platform) (buf : list ascii) (pos : Z)
    (s : specifier) (a : printfArg) : printfArg :=
  {| type := table_kind pl s;
     formatStart := pos;
     formatLength := Z.of_nat (length (piece_text (Spec s)));
     format := strncpy (drop (Z.to_nat pos) buf) (length (piece_text (Spec s)));
     u := u a |}.

(** The descriptors of the specifiers of [ps], left to right, when the
    text of [ps] starts at offset [off]. *)
Fixpoint descriptors (pl : Platform) (buf : list ascii) (off : Z)
    (ps : list piece) : list printfArg :=
  match ps with
  | [] => []
  | p :: ps' =>
      let off' := off + Z.of_nat (length (piece_text p)) in
      match p with
      | Spec s => described pl buf off s fresh_arg :: descriptors pl buf off' ps'
      | _ => descriptors pl buf off' ps'
      end
  end.

(** The kind and the span of a descriptor. *)
Definition kind_and_span (a : printfArg)
  : TidyFormatParameterType * Z * Z :=
  (type a, formatStart a, formatLength a).

(** * Invariants used in the proofs *)

(** The last character read was the terminator, or a terminator is
    still ahead. *)
Definition terminated (c : ascii) (p : cursor) : Prop :=
  c = NUL ∨ NUL ∈ p_mem p.

(** A character the first pass steps over singly. *)
Definition plain (c : ascii) : bool :=
  bool_decide (c ≠ "%"%char) && bool_decide (c ≠ NUL).



(** * Sample format strings *)

Definition plain_spec (m : length_modifier) (c : conversion) : specifier :=
  {| width := []; precision := None; modifier := m; conv := c |}.

(** The pieces of ["%d and %lld%%, %5.2f %s"]. *)
Definition sample_pieces : list piece :=
  [ Spec (plain_spec no_modifier conv_d);
    Text " "; Text "a"; Text "n"; Text "d"; Text " ";
    Spec (plain_spec mod_ll conv_d);
    Escape; Text ","; Text " ";
    Spec {| width := ["5"]; precision := Some ["2"];
            modifier := no_modifier; conv := conv_f |};
    Text " ";
    Spec (plain_spec no_modifier conv_s) ]%char.

(** * Notions used to state further properties *)

(** The union member that receives a value the third pass fetches. *)
Definition union_of (v : va_value) : arg_union :=
  match v with
  | va_int v => u_i v
  | va_unsigned_int v => u_ui v
  | va_int32_t v => u_i32 v
  | va_uint32_t v => u_ui32 v
  | va_int64_t v => u_ll v
  | va_uint64_t v => u_ull v
  | va_char_p s => u_s s
  | va_WCHAR_p ws => u_ws ws
  | va_size_t_p addr => u_ip addr
  | va_double d => u_d d
  end.

(** The kinds for which the third pass fetches a value of the type of [v]. *)
Definition kinds_fetching (pl : Platform) (v : va_value)
  : list TidyFormatParameterType :=
  match v with
  | va_int _ =>
      [tidyFormatType_INT16; tidyFormatType_UINT16; tidyFormatType_INTN]
  | va_unsigned_int _ => [tidyFormatType_UINTN]
  | va_int32_t _ => [tidyFormatType_INT32]
  | va_uint32_t _ => [tidyFormatType_UINT32]
  | va_int64_t _ => [tidyFormatType_INT64]
  | va_uint64_t _ => [tidyFormatType_UINT64]
  | va_char_p _ => [tidyFormatType_STRING]
  | va_WCHAR_p _ => if WIN32 pl then [tidyFormatType_WSTRING] else []
  | va_size_t_p _ => [tidyFormatType_INTSTR]
  | va_double _ => [tidyFormatType_DOUBLE]
  end.

(** The loop a client of the iterator runs,
    [for (it = getMessageArguments(m); it; )
       visit(getNextMessageArgument(m, &it));],
    from the iterator value [iter] on: the arguments visited, in
    order.  [fuel] bounds the number of turns. *)
Fixpoint traverse (pl : Platform) (fuel : nat) (m : TidyMessageImpl)
    (iter : Z) : option (list Z) :=
  if decide (iter = 0) then Some []
  else
    match fuel with
    | O => None
    | S fuel =>
        let '(item, iter') := getNextMessageArgument pl m iter in
        cons item <$> traverse pl fuel m iter'
    end.

(** The cursor [p] stands at offset [p_off p] of the buffer [buf]. *)
Definition cursor_at (buf : list ascii) (p : cursor) : Prop :=
  0 ≤ p_off p ∧ drop (Z.to_nat (p_off p)) buf = p_mem p.

(** The span of a descriptor is shorter than the [format] field, and
    [format] holds the bytes of the span in [buf], which start with
    [%] and have no terminator among them.  An unsigned kind is that
    of a span ending in [p]. *)
Definition span_ok (buf : list ascii) (a : printfArg) : Prop :=
  0 ≤ formatStart a ∧ 2 ≤ formatLength a < FORMAT_LENGTH
  ∧ format a = take (Z.to_nat (formatLength a))
                    (drop (Z.to_nat (formatStart a)) buf)
  ∧ head (format a) = Some "%"%char
  ∧ (NUL ∉ format a)
  ∧ (type a ∈ [tidyFormatType_UINTN; tidyFormatType_UINT16;
               tidyFormatType_UINT32; tidyFormatType_UINT64] →
     last (format a) = Some "p"%char).

(** The first [n] descriptors of [l] have spans in [buf] that end at or
    before [lim] and follow one another without overlap. *)
Definition spans_upto (buf : list ascii) (n : nat) (lim : Z)
    (l : list printfArg) : Prop :=
  (∀ j a, (j < n)%nat → l !! j = Some a →
          span_ok buf a ∧ formatStart a + formatLength a ≤ lim)
  ∧ (∀ j a b, (S j < n)%nat → l !! j = Some a → l !! S j = Some b →
              formatStart a + formatLength a ≤ formatStart b).

(** A character at which the width, the precision and the size block
    of the second pass all stop. *)
Definition ends_stem (k : ascii) : Prop :=
  is_digit k = false ∧ k ≠ "."%char ∧ k ≠ "*"%char ∧ k ≠ "%"%char
  ∧ k ≠ "h"%char ∧ k ≠ "l"%char ∧ k ≠ "L"%char ∧ k ≠ "z"%char.

(** A character that is no digit, does not go on with a specifier and
    is none of the conversion characters that the format block gives a
    kind to on some platform.  The terminator is such a character. *)
Definition no_conversion (k : ascii) : bool :=
  negb (is_digit k)
  && bool_decide (k ∉ [".";"*";"%";"h";"l";"L";"z";
                       "d";"c";"i";"o";"u";"x";"X";
                       "e";"f";"g";"p";"S";"s";"n"]%char).

(** * Further sample collaborators *)

(** The table of [sample_ext] with three more diagnostics: code 700,
    whose format gives its width as a run-time value, code 701, which
    prints a pointer, and code 702, which prints an unsigned number. *)
Definition starred_ext : Externals :=
  {| TidyFatal := TidyFatal sample_ext;
     LINE_COLUMN_STRING := LINE_COLUMN_STRING sample_ext;
     tidyDefaultString := λ c,
       if decide (c = 700) then "%*d rows"%string
       else if decide (c = 701) then "node at %p"%string
       else if decide (c = 702) then "%u items"%string
       else tidyDefaultString sample_ext c;
     tidyLocalizedString := λ c,
       if decide (c = 700) then "%*d Zeilen"%string
       else if decide (c = 701) then "Knoten bei %p"%string
       else if decide (c = 702) then "%u Elemente"%string
       else tidyLocalizedString sample_ext c;
     tidyErrorCodeAsKey := λ _, "ROWS"%string |}.


(** * Properties of the scanner *)

(** Induction on the length of a list, for the scans that take one or
    two characters a turn. *)
Lemma length_induction {A} (P : list A → Prop) :
  (∀ l, (∀ l', (length l' < length l)%nat → P l') → P l) → ∀ l, P l.
Proof.
  intros step l. remember (length l) as n eqn:Hn.
  revert l Hn. induction (lt_wf n) as [n _ IH]. intros l ->.
  apply step. intros l' Hlt. by apply (IH (length l')).
Qed.

(** ** The first pass *)

Lemma count_pass_only_escapes s number :
  only_escapes s = true → count_pass (s ++ [NUL]) number = (number, None).
Proof.
  induction s as [s IH] using length_induction. intros Hs.
  destruct s as [|c s]; [reflexivity|]. simpl in *.
  destruct (decide (c = NUL)); [reflexivity|].
  destruct (decide (c = "%"%char)) as [->|Hc].
  - rewrite decide_False by (by intros []).
    destruct s as [|c' s]; [discriminate|]. simpl.
    destruct (decide (c' = "%"%char)); [|discriminate].
    apply IH; [simpl; lia | done].
  - rewrite decide_True by done. apply IH; [simpl; lia | done].
Qed.

(** The count only grows, by the amount counted from zero. *)
Lemma count_pass_shift p number :
  count_pass p number = ((count_pass p 0).1 + number, (count_pass p 0).2).
Proof.
  revert number. induction p as [p IH] using length_induction. intros number.
  destruct p as [|c p]; simpl; [f_equal; lia|].
  destruct (decide (c = NUL)); [simpl; f_equal; lia|].
  destruct (decide (c ≠ "%"%char)); [apply IH; simpl; lia|].
  destruct p as [|c' p]; simpl; [f_equal; lia|].
  destruct (decide (c' = "%"%char)); [apply IH; simpl; lia|].
  rewrite (IH p) by (simpl; lia). rewrite (IH p ltac:(simpl; lia) (0 + 1)).
  simpl. f_equal. lia.
Qed.

Lemma count_pass_lone_percent pre number :
  NUL ∉ pre →
  lone_percent_at_end (pre ++ ["%"%char]) = true →
  ∃ k, count_pass (pre ++ [NUL]) number = (k, None)
       ∧ count_pass (pre ++ ["%"%char; NUL]) number
         = (k + 1, Some ReadPastBuffer).
Proof.
  revert number. induction pre as [pre IH] using length_induction.
  intros number Hnul Hlone.
  destruct pre as [|c pre]; [by exists number|].
  apply not_elem_of_cons in Hnul as [Hc Hnul]. simpl in *.
  rewrite !(decide_False (P := c = NUL)) by done.
  destruct (decide (c = "%"%char)) as [->|Hpc].
  - rewrite !decide_False by (by intros []).
    destruct pre as [|c' pre]; [discriminate|].
    apply not_elem_of_cons in Hnul as [Hc' Hnul]. simpl in *.
    destruct (decide (c' = "%"%char)); apply IH; simpl; (lia || done).
  - rewrite !decide_True by done. apply IH; simpl; (lia || done).
Qed.

Lemma lone_percent_last s :
  lone_percent_at_end s = true → ∃ pre, s = pre ++ ["%"%char].
Proof.
  induction s as [s IH] using length_induction. intros Hs.
  destruct s as [|c s]; [discriminate|]. simpl in Hs.
  destruct (decide (c = "%"%char)) as [->|].
  - destruct s as [|c' s]; [by exists []|].
    destruct (IH s) as [pre ->]; [simpl; lia | done |].
    by exists ("%"%char :: c' :: pre).
  - destruct (IH s) as [pre ->]; [simpl; lia | done |].
    by exists (c :: pre).
Qed.

Lemma count_pass_well_formed s number :
  lone_percent_at_end s = false → (count_pass (s ++ [NUL]) number).2 = None.
Proof.
  revert number. induction s as [s IH] using length_induction.
  intros number Hs.
  destruct s as [|c s]; [reflexivity|]. simpl in *.
  destruct (decide (c = NUL)); [reflexivity|].
  destruct (decide (c = "%"%char)) as [->|Hc].
  - rewrite decide_False by (by intros []).
    destruct s as [|c' s]; [discriminate|]. simpl.
    destruct (decide (c' = "%"%char)); apply IH; simpl; (lia || done).
  - rewrite decide_True by done. apply IH; [simpl; lia | done].
Qed.

(** C9.  A format string whose only %-introduced sequences are [%%]
    escapes, the empty string included, is scanned to the success
    status with count 0 and no array, without an allocation; the count
    differs from the failure count -1. *)
Theorem only_escapes_is_success_with_zero pl alloc fmt ap :
  only_escapes (list_ascii_of_string fmt) = true →
  ∃ r, BuildArgArray pl alloc fmt ap = Normal r
       ∧ returned r = None ∧ rv_out r = 0 ∧ heap r = [] ∧ rv_out r ≠ -1.
Proof.
  intros Hs. unfold BuildArgArray, c_buffer.
  rewrite count_pass_only_escapes by done. simpl.
  eexists. split; [reflexivity|]. by repeat split.
Qed.

Lemma only_escapes_is_success_with_zero_witness :
  only_escapes (list_ascii_of_string "100%% done") = true
  ∧ ∃ r, BuildArgArray LP64 (λ _, true) "100%% done" [] = Normal r
         ∧ returned r = None ∧ rv_out r = 0 ∧ heap r = [] ∧ rv_out r ≠ -1.
Proof.
  split; [reflexivity|].
  apply (only_escapes_is_success_with_zero LP64 (λ _, true) "100%% done" []).
  reflexivity.
Defined.

(** ** The second pass never leaves the buffer *)

Lemma terminated_ahead c p : terminated c p → c ≠ NUL → NUL ∈ p_mem p.
Proof. by intros [?|?]. Qed.

Lemma deref_incr_terminated p :
  NUL ∈ p_mem p →
  ∃ c p', deref_incr p = Normal (c, p') ∧ terminated c p'
          ∧ (length (p_mem p') < length (p_mem p))%nat.
Proof.
  destruct p as [off [|c m]]; simpl; intros H.
  - by apply elem_of_nil in H.
  - exists c, (Cursor (off + 1) m). split; [done|]. split; [|simpl; lia].
    apply elem_of_cons in H as [<-|H]; [by left | by right].
Qed.

Lemma skip_digits_terminated c off mem :
  terminated c (Cursor off mem) →
  ∃ c' p', skip_digits c off mem = Normal (c', p') ∧ terminated c' p'
           ∧ (length (p_mem p') ≤ length mem)%nat.
Proof.
  revert c off. induction mem as [|c' mem IH]; intros c off Hterm; simpl.
  - destruct (is_digit c) eqn:Hd.
    + destruct Hterm as [->|H]; [discriminate | by apply elem_of_nil in H].
    + by exists c, (Cursor off []).
  - destruct (is_digit c) eqn:Hd.
    + destruct (IH c' (off + 1)) as (c'' & p' & -> & Hterm' & Hlen).
      * destruct Hterm as [->|H]; [discriminate|]. simpl in H.
        apply elem_of_cons in H as [<-|H]; [by left | by right].
      * exists c'', p'. repeat split; [done | lia].
    + exists c, (Cursor off (c' :: mem)). by repeat split.
Qed.

Lemma read_size_terminated pl c p :
  terminated c p →
  ∃ t c' p', read_size pl c p = Normal (t, c', p') ∧ terminated c' p'
             ∧ (length (p_mem p') ≤ length (p_mem p))%nat.
Proof.
  intros Hterm. unfold read_size.
  repeat case_decide; subst;
    try (destruct (deref_incr_terminated p) as (c1 & p1 & -> & Hterm1 & Hlen1);
         [by apply (terminated_ahead _ _ Hterm) | simpl]);
    try (case_decide; subst;
         [destruct (deref_incr_terminated p1) as (c2 & p2 & -> & Hterm2 & Hlen2);
          [by apply (terminated_ahead _ _ Hterm1) | simpl] |]);
    eexists _, _, _; (split; [reflexivity|]); (split; [eassumption | lia]).
Qed.

Lemma update_current_fault f st x :
  update_current f st = Faulted x → x = WritePastArray.
Proof.
  unfold update_current. case_decide; [|congruence].
  destruct (nas st !! _); congruence.
Qed.

Lemma update_current_type f st st' :
  update_current f st = Normal st' →
  ∃ a, nas st !! Z.to_nat (cn st) = Some a ∧ current_type st' = type (f a)
       ∧ cn st' = cn st ∧ rv st' = rv st
       ∧ nas st' = <[Z.to_nat (cn st) := f a]> (nas st).
Proof.
  unfold update_current. case_decide; [|discriminate].
  destruct (nas st !! _) as [a|] eqn:Ha; [|discriminate].
  intros [= <-]. exists a. unfold current_type. simpl.
  rewrite list_lookup_insert_eq by (by eapply lookup_lt_Some). done.
Qed.

Lemma update_current_keeps_type f st st' :
  (∀ a, type (f a) = type a) →
  update_current f st = Normal st' → current_type st' = current_type st.
Proof.
  intros Hf H. apply update_current_type in H as (a & Ha & -> & _).
  unfold current_type. by rewrite Ha, Hf.
Qed.

Lemma conversion_type_NUL pl t :
  conversion_type pl NUL t = tidyFormatType_UNKNOWN.
Proof. reflexivity. Qed.

(** One turn of the second loop that goes on has read a conversion
    character, so the terminator is still ahead; a turn faults only on
    the array. *)
Lemma classify_specifier_safe pl buf c p st :
  terminated c p →
  match classify_specifier pl buf c p st with
  | Normal (Continue p' st') =>
      NUL ∈ p_mem p' ∧ (length (p_mem p') ≤ length (p_mem p))%nat
  | Normal (Break _) => True
  | Faulted f => f = WritePastArray
  end.
Proof.
  intros Hterm. unfold classify_specifier.
  case_decide; [done|].
  destruct p as [off mem]. cbn [p_off p_mem].
  destruct (skip_digits_terminated c off mem Hterm)
    as (c1 & p1 & -> & Hterm1 & Hlen1). simpl.
  assert (∃ prec,
    (if decide (c1 = "."%char)
     then deref_incr p1 ≫= λ '(c, p),
            if decide (c = "*"%char) then mret None
            else skip_digits c (p_off p) (p_mem p) ≫= λ r, mret (Some r)
     else mret (Some (c1, p1))) = Normal prec
    ∧ match prec with
      | Some (c2, p2) =>
          terminated c2 p2 ∧ (length (p_mem p2) ≤ length mem)%nat
      | None => True
      end) as (prec & -> & Hprec).
  { case_decide as Hdot.
    - destruct (deref_incr_terminated p1) as (c' & p' & -> & Hterm' & Hlen').
      { apply (terminated_ahead _ _ Hterm1). by subst. }
      simpl. case_decide; [by exists None|].
      destruct p' as [off' mem']. cbn [p_off p_mem].
      destruct (skip_digits_terminated c' off' mem' Hterm')
        as (c2 & p2 & -> & Hterm2 & Hlen2). simpl in *.
      exists (Some (c2, p2)). split; [done|]. split; [done | lia].
    - exists (Some (c1, p1)). by repeat split. }
  simpl. destruct prec as [[c2 p2]|]; [|done].
  destruct Hprec as [Hterm2 Hlen2].
  destruct (update_current _ _) as [st1|x] eqn:H1; simpl;
    [|by apply update_current_fault in H1].
  destruct (read_size_terminated pl c2 p2 Hterm2)
    as (t & c3 & p3 & -> & Hterm3 & Hlen3). simpl.
  destruct (update_current _ st1) as [st2|x] eqn:H2; simpl;
    [|by apply update_current_fault in H2].
  destruct (update_current _ st2) as [st3|x] eqn:H3; simpl;
    [|by apply update_current_fault in H3].
  destruct (update_current _ st3) as [st4|x] eqn:H4; simpl;
    [|by apply update_current_fault in H4].
  case_decide; [done|].
  destruct (update_current _ st4) as [st5|x] eqn:H5; simpl;
    [|by apply update_current_fault in H5].
  case_decide as Hknown; [done|]. simpl.
  split; [|simpl in *; lia].
  apply (terminated_ahead _ _ Hterm3). intros ->.
  apply Hknown.
  rewrite (update_current_keeps_type (set_format _) _ _ (λ _, eq_refl) H5).
  rewrite (update_current_keeps_type (set_span _ _) _ _ (λ _, eq_refl) H4).
  apply update_current_type in H3 as (a & _ & -> & _). simpl.
  apply conversion_type_NUL.
Qed.

(** The second pass, started in a terminated buffer with as much fuel
    as the buffer is long, neither reads past the buffer nor uses up
    its fuel. *)
Lemma classify_pass_safe pl buf fuel p st :
  NUL ∈ p_mem p → (length (p_mem p) ≤ fuel)%nat →
  match classify_pass pl fuel buf p st with
  | Normal _ => True
  | Faulted f => f = WritePastArray
  end.
Proof.
  revert p st. induction fuel as [|fuel IH]; intros p st Hnul Hlen.
  - destruct (p_mem p); [by apply elem_of_nil in Hnul | simpl in Hlen; lia].
  - simpl.
    destruct (deref_incr_terminated p Hnul) as (c & p1 & -> & Hterm1 & Hlen1).
    simpl. case_decide as Hc; [done|].
    pose proof (terminated_ahead _ _ Hterm1 Hc) as Hnul1.
    case_decide; [apply IH; [done | lia]|].
    destruct (deref_incr_terminated p1 Hnul1) as (c' & p2 & -> & Hterm2 & Hlen2).
    simpl. case_decide.
    + apply IH; [|lia]. apply (terminated_ahead _ _ Hterm2). by subst.
    + pose proof (classify_specifier_safe pl buf c' p2 st Hterm2) as Hs.
      destruct (classify_specifier pl buf c' p2 st) as [[st'|p' st']|x];
        simpl; [done | | done].
      destruct Hs as [Hnul' Hlen']. apply IH; [done | lia].
Qed.

(** ** The passes on a well-formed format string *)

Lemma digit_is_plain c : is_digit c = true → plain c = true.
Proof.
  destruct c as [[] [] [] [] [] [] [] []]; try discriminate; reflexivity.
Qed.

Lemma skip_digits_stops x off mem :
  is_digit x = false → skip_digits x off mem = Normal (x, Cursor off mem).
Proof. intros Hx. destruct mem; simpl; by rewrite Hx. Qed.

(** The width loop runs over a digit run and stops at the character
    behind it. *)
Lemma skip_digits_run ds c mem off x rest :
  forallb is_digit ds = true → is_digit x = false →
  c :: mem = ds ++ x :: rest →
  skip_digits c off mem = Normal (x, Cursor (off + Z.of_nat (length ds)) rest).
Proof.
  revert c mem off. induction ds as [|d ds IH]; intros c mem off Hds Hx Heq.
  - injection Heq as -> ->. rewrite skip_digits_stops by done.
    simpl. by rewrite Z.add_0_r.
  - injection Heq as -> ->. simpl in Hds. apply andb_true_iff in Hds as [Hd Hds].
    destruct (ds ++ x :: rest) as [|c' mem'] eqn:Heq.
    { by destruct ds. }
    simpl. rewrite Hd. rewrite (IH c' mem' (off + 1)) by done.
    do 3 f_equal. rewrite Nat2Z.inj_succ. lia.
Qed.

(** The size block on the text of a modifier and a conversion. *)
Lemma read_size_modifier pl m cv off rest y mem :
  y :: mem = modifier_text m ++ conversion_char cv :: rest →
  read_size pl y (Cursor off mem)
  = Normal (sized_integer pl m, conversion_char cv,
            Cursor (off + Z.of_nat (length (modifier_text m))) rest).
Proof.
  intros Heq. unfold read_size.
  destruct m, cv; injection Heq as -> ->;
    repeat (case_decide; try congruence); simpl;
    repeat (case_decide; try congruence); simpl;
    unfold sized_integer, sizeof_int32_t, sizeof_int64_t in *;
    repeat (case_decide; try congruence);
    do 3 f_equal; lia.
Qed.

(** The format block gives the kind of the mapping table. *)
Lemma conversion_type_table pl s :
  conversion_type pl (conversion_char (conv s)) (sized_integer pl (modifier s))
  = table_kind pl s.
Proof. unfold table_kind. by destruct (conv s). Qed.

(** The first character behind the precision is no digit, no [.] and
    no [*]. *)
Lemma modifier_head m cv rest :
  ∃ y tl, modifier_text m ++ conversion_char cv :: rest = y :: tl
          ∧ is_digit y = false ∧ y ≠ "."%char ∧ y ≠ "*"%char
          ∧ y ≠ "%"%char.
Proof. destruct m, cv; eexists _, _; by repeat split. Qed.

Lemma update_current_middle f n done a more r :
  n = Z.of_nat (length done) →
  update_current f (ScanState n (done ++ a :: more) r)
  = Normal (ScanState n (done ++ f a :: more) r).
Proof.
  intros ->. unfold update_current. simpl.
  rewrite decide_True by lia. rewrite Nat2Z.id.
  rewrite list_lookup_middle by done.
  by rewrite insert_app_r_alt, Nat.sub_diag by done.
Qed.

Lemma current_type_middle n done a more r :
  n = Z.of_nat (length done) →
  current_type (ScanState n (done ++ a :: more) r) = type a.
Proof.
  intros ->. unfold current_type. simpl.
  by rewrite Nat2Z.id, list_lookup_middle.
Qed.

(** The precision block: what it leaves for the size block. *)
Lemma precision_block s off rest x tl :
  match precision s with Some ds => forallb is_digit ds | None => true end
    = true →
  x :: tl = precision_text (precision s) ++ modifier_text (modifier s)
            ++ conversion_char (conv s) :: rest →
  ∃ y tl',
    y :: tl' = modifier_text (modifier s) ++ conversion_char (conv s) :: rest
    ∧ (if decide (x = "."%char)
       then deref_incr (Cursor off tl) ≫= λ '(c, p),
              if decide (c = "*"%char) then mret None
              else skip_digits c (p_off p) (p_mem p) ≫= λ r, mret (Some r)
       else mret (Some (x, Cursor off tl)))
      = Normal (Some (y, Cursor (off + Z.of_nat (length (precision_text (precision s))))
                           tl')).
Proof.
  intros Hds Heq.
  destruct (modifier_head (modifier s) (conv s) rest)
    as (y & tl' & Hy & Hdig & Hdot & Hstar & _).
  exists y, tl'. split; [done|].
  destruct (precision s) as [ds|]; simpl in Heq.
  - injection Heq as -> ->. rewrite decide_True by done.
    rewrite Hy. destruct (ds ++ y :: tl') as [|c mem] eqn:Hc.
    { by destruct ds. }
    simpl. rewrite (decide_False (P := c = "*"%char)); last first.
    { intros ->. destruct ds as [|d ds]; simpl in *.
      - injection Hc as Hc _. by rewrite Hc in Hstar.
      - injection Hc as Hc _. rewrite Hc in Hds.
        by apply andb_true_iff in Hds as [? _]. }
    rewrite (skip_digits_run ds c mem (off + 1) y tl') by done.
    simpl. do 4 f_equal. rewrite Nat2Z.inj_succ. lia.
  - rewrite Hy in Heq. injection Heq as -> ->.
    rewrite decide_False by done. simpl. by rewrite Z.add_0_r.
Qed.

(** The first character of a specifier's body is neither [%] nor [*],
    and behind the width stands no digit. *)
Lemma after_width_head s rest :
  ∃ x tl, precision_text (precision s) ++ modifier_text (modifier s)
          ++ conversion_char (conv s) :: rest = x :: tl
          ∧ is_digit x = false ∧ x ≠ "*"%char ∧ x ≠ "%"%char.
Proof.
  destruct (precision s) as [ds|]; simpl.
  - by eexists _, _.
  - destruct (modifier_head (modifier s) (conv s) rest)
      as (y & tl & -> & ? & ? & ? & ?). by eexists _, _.
Qed.

Lemma body_split s rest :
  specifier_body s ++ rest
  = width s ++ precision_text (precision s) ++ modifier_text (modifier s)
    ++ conversion_char (conv s) :: rest.
Proof. unfold specifier_body. by rewrite <- !app_assoc. Qed.

Lemma body_length s :
  length (specifier_body s)
  = (length (width s) + length (precision_text (precision s))
     + length (modifier_text (modifier s)) + 1)%nat.
Proof. unfold specifier_body. rewrite !length_app. simpl. lia. Qed.

Lemma body_head s rest c mem :
  forallb is_digit (width s) = true →
  c :: mem = specifier_body s ++ rest →
  c ≠ "*"%char ∧ c ≠ "%"%char.
Proof.
  intros Hw. rewrite body_split.
  destruct (after_width_head s rest) as (x & tl & -> & _ & Hstar & Hpct).
  destruct (width s) as [|d ds]; simpl; intros [= -> _]; [done|].
  simpl in Hw. apply andb_true_iff in Hw as [Hd _].
  split; by intros ->.
Qed.

(** One turn of the second loop on a supported specifier: the next
    free descriptor is filled as the specification describes it, and
    the loop goes on behind the conversion character. *)
Lemma classify_supported_specifier pl buf s off rest st a done more c mem :
  supported pl s = true →
  c :: mem = specifier_body s ++ rest →
  nas st = done ++ a :: more →
  cn st + 1 = Z.of_nat (length done) →
  classify_specifier pl buf c (Cursor off mem) st
  = Normal (Continue
      (Cursor (off + Z.of_nat (length (specifier_body s)) - 1) rest)
      (ScanState (cn st + 1)
                 (done ++ described pl buf (off - 2) s a :: more) (rv st))).
Proof.
  unfold supported. rewrite !andb_true_iff.
  intros [[[Hw Hp] Hlen] Hkind] Heq Hnas Hcn.
  apply bool_decide_eq_true in Hlen, Hkind.
  unfold classify_specifier.
  destruct (body_head s rest c mem Hw Heq) as [Hstar _].
  rewrite decide_False by done. cbn [p_off p_mem].
  rewrite body_split in Heq.
  destruct (after_width_head s rest) as (x & tl & Hx & Hxd & _ & _).
  rewrite Hx in Heq.
  rewrite (skip_digits_run (width s) c mem off x tl) by done. simpl.
  destruct (precision_block s (off + Z.of_nat (length (width s))) rest x tl)
    as (y & tl' & Hy & ->); [done | done |]. simpl.
  rewrite Hnas, update_current_middle by done. simpl.
  rewrite (read_size_modifier pl (modifier s) (conv s) _ rest y tl') by done.
  simpl.
  rewrite update_current_middle by done. simpl.
  rewrite conversion_type_table.
  rewrite update_current_middle by done. simpl.
  assert (off + Z.of_nat (length (width s))
            + Z.of_nat (length (precision_text (precision s)))
            + Z.of_nat (length (modifier_text (modifier s))) - (off - 2)
          = Z.of_nat (length (piece_text (Spec s)))) as Hspan.
  { simpl. rewrite body_length. lia. }
  rewrite Hspan.
  rewrite update_current_middle by done. simpl.
  rewrite decide_False by (simpl in Hlen; unfold FORMAT_LENGTH in *; lia).
  rewrite update_current_middle by done. simpl.
  rewrite current_type_middle by done. simpl.
  rewrite decide_False by done.
  rewrite Nat2Z.id. do 3 f_equal.
  f_equal. rewrite body_length. lia.
Qed.

Lemma count_pass_plain l rest number :
  forallb plain l = true → count_pass (l ++ rest) number = count_pass rest number.
Proof.
  induction l as [|c l IH]; [done|]. simpl.
  rewrite andb_true_iff. unfold plain at 1. rewrite andb_true_iff.
  intros [[Hpct Hnul] Hl].
  apply bool_decide_eq_true in Hpct, Hnul.
  rewrite decide_False, decide_True by done. by apply IH.
Qed.

Lemma modifier_plain m cv :
  forallb plain (modifier_text m ++ [conversion_char cv]) = true.
Proof. by destruct m, cv. Qed.

Lemma digits_plain ds : forallb is_digit ds = true → forallb plain ds = true.
Proof.
  induction ds as [|d ds IH]; [done|]. simpl. rewrite !andb_true_iff.
  intros [Hd Hds]. split; [by apply digit_is_plain | by apply IH].
Qed.

Lemma forallb_app_true {A} (f : A → bool) l1 l2 :
  forallb f l1 = true → forallb f l2 = true → forallb f (l1 ++ l2) = true.
Proof. intros H1 H2. rewrite forallb_app. by rewrite H1, H2. Qed.

Lemma body_plain pl s : supported pl s = true → forallb plain (specifier_body s) = true.
Proof.
  unfold supported. rewrite !andb_true_iff. intros [[[Hw Hp] _] _].
  unfold specifier_body. apply forallb_app_true; [by apply digits_plain|].
  apply forallb_app_true; [|apply modifier_plain].
  destruct (precision s) as [ds|]; [|done]. simpl. by apply digits_plain.
Qed.

Lemma body_nonempty s : ∃ c tl, specifier_body s = c :: tl.
Proof.
  unfold specifier_body.
  destruct (width s); [|by eexists _, _].
  destruct (precision s); [by eexists _, _|]. simpl.
  destruct (modifier s); by eexists _, _.
Qed.

(** The first pass counts one for each specifier of a well-formed
    format string. *)
Lemma count_pass_pieces pl ps rest number :
  forallb (well_formed pl) ps = true →
  count_pass (render ps ++ rest) number
  = count_pass rest (number + Z.of_nat (length (specifiers ps))).
Proof.
  revert number. induction ps as [|p ps IH]; intros number Hps.
  { simpl. by rewrite Z.add_0_r. }
  simpl in Hps. apply andb_true_iff in Hps as [Hp Hps].
  unfold render in *. cbn [map concat].
  destruct p as [c| |s]; simpl in *.
  - apply andb_true_iff in Hp as [Hpct Hnul].
    apply bool_decide_eq_true in Hpct, Hnul.
    rewrite decide_False, decide_True by done. by apply IH.
  - rewrite IH by done. done.
  - pose proof (body_plain pl s Hp) as Hplain.
    destruct (body_nonempty s) as (c & tl & Hbody). rewrite Hbody in *.
    simpl in *. apply andb_true_iff in Hplain as [Hc Htl].
    unfold plain in Hc. apply andb_true_iff in Hc as [Hpct _].
    apply bool_decide_eq_true in Hpct.
    rewrite decide_False by done. rewrite <- app_assoc.
    rewrite count_pass_plain by done. rewrite IH by done.
    f_equal. lia.
Qed.

Lemma piece_nonempty p : (1 ≤ length (piece_text p))%nat.
Proof. destruct p; simpl; lia. Qed.

Lemma render_length ps : (length ps ≤ length (render ps))%nat.
Proof.
  unfold render. induction ps as [|p ps IH]; simpl; [lia|].
  rewrite length_app. pose proof (piece_nonempty p). lia.
Qed.

Lemma descriptors_length pl buf off ps :
  length (descriptors pl buf off ps) = length (specifiers ps).
Proof.
  revert off. induction ps as [|[c| |s] ps IH]; intros off; simpl; auto.
Qed.

Lemma descriptors_kinds pl buf off ps :
  map type (descriptors pl buf off ps) = map (table_kind pl) (specifiers ps).
Proof.
  revert off. induction ps as [|[c| |s] ps IH]; intros off; simpl; auto.
  by rewrite IH.
Qed.

(** The turns of the second loop, by the characters at the cursor. *)
Lemma classify_pass_end pl fuel buf off mem st :
  classify_pass pl (S fuel) buf (Cursor off (NUL :: mem)) st = Normal st.
Proof. reflexivity. Qed.

Lemma classify_pass_text pl fuel buf off c mem st :
  c ≠ NUL → c ≠ "%"%char →
  classify_pass pl (S fuel) buf (Cursor off (c :: mem)) st
  = classify_pass pl fuel buf (Cursor (off + 1) mem) st.
Proof. intros Hnul Hpct. simpl. by rewrite decide_False, decide_True. Qed.

Lemma classify_pass_escape pl fuel buf off mem st :
  classify_pass pl (S fuel) buf (Cursor off ("%"%char :: "%"%char :: mem)) st
  = classify_pass pl fuel buf (Cursor (off + 1 + 1) mem) st.
Proof. reflexivity. Qed.

Lemma classify_pass_percent pl fuel buf off c mem st :
  c ≠ "%"%char →
  classify_pass pl (S fuel) buf (Cursor off ("%"%char :: c :: mem)) st
  = classify_specifier pl buf c (Cursor (off + 1 + 1) mem) st ≫= λ r,
      match r with
      | Break st => mret st
      | Continue p st => classify_pass pl fuel buf p st
      end.
Proof.
  intros Hpct. cbn [classify_pass]. simpl.
  by rewrite (decide_False (P := c = "%"%char)).
Qed.

(** The second pass over the pieces of a well-formed format string
    fills one descriptor for each specifier, in order, as the
    specification describes them. *)
Lemma classify_pass_pieces pl buf ps fuel off rest done more r :
  forallb (well_formed pl) ps = true →
  classify_pass pl (length ps + fuel) buf (Cursor off (render ps ++ rest))
    (ScanState (Z.of_nat (length done) - 1)
       (done ++ replicate (length (specifiers ps)) fresh_arg ++ more) r)
  = classify_pass pl fuel buf
      (Cursor (off + Z.of_nat (length (render ps))) rest)
      (ScanState (Z.of_nat (length done + length (specifiers ps)) - 1)
         (done ++ descriptors pl buf off ps ++ more) r).
Proof.
  revert off done. induction ps as [|p ps IH]; intros off done Hps.
  { simpl. by rewrite Z.add_0_r, Nat.add_0_r. }
  simpl in Hps. apply andb_true_iff in Hps as [Hp Hps].
  unfold render in *. cbn [map concat length Nat.add]. rewrite <- app_assoc.
  rewrite length_app.
  destruct p as [c| |s]; cbn [piece_text app specifiers omap descriptors].
  - simpl in Hp. apply andb_true_iff in Hp as [Hpct Hnul].
    apply bool_decide_eq_true in Hpct, Hnul.
    rewrite classify_pass_text by done.
    replace (off + 1) with (off + Z.of_nat (length [c])) by (simpl; lia).
    rewrite IH by done. f_equal. f_equal. lia.
  - rewrite classify_pass_escape.
    replace (off + 1 + 1) with (off + Z.of_nat (length ["%"; "%"]%char))
      by (simpl; lia).
    rewrite IH by done. f_equal. f_equal. lia.
  - destruct (body_nonempty s) as (c & tl & Hbody).
    assert (Hhead : c :: tl ++ concat (map piece_text ps) ++ rest
                    = specifier_body s
                      ++ concat (map piece_text ps) ++ rest)
      by (by rewrite Hbody).
    assert (Hw : forallb is_digit (width s) = true).
    { simpl in Hp. unfold supported in Hp.
      by rewrite !andb_true_iff in Hp; destruct Hp as [[[? _] _] _]. }
    destruct (body_head s _ c _ Hw Hhead) as [_ Hpct].
    rewrite Hbody at 1. cbn [app].
    rewrite classify_pass_percent by done.
    rewrite (classify_supported_specifier pl buf s (off + 1 + 1)
               (concat (map piece_text ps) ++ rest) _ fresh_arg done
               (replicate (length (specifiers ps)) fresh_arg ++ more) c
               (tl ++ concat (map piece_text ps) ++ rest) Hp Hhead);
      [|done|simpl; lia].
    cbn [mbind outcome_bind cn rv].
    replace (off + 1 + 1 - 2) with off by lia.
    replace (off + 1 + 1 + Z.of_nat (length (specifier_body s)) - 1)
      with (off + Z.of_nat (length ("%"%char :: specifier_body s)))
      by (simpl length; lia).
    rewrite (cons_middle (described pl buf off s fresh_arg) done), app_assoc.
    replace (Z.of_nat (length done) - 1 + 1)
      with (Z.of_nat (length (done ++ [described pl buf off s fresh_arg])) - 1)
      by (rewrite length_app; simpl; lia).
    rewrite IH by done.
    rewrite <- !app_assoc. cbn [app length]. rewrite length_app. cbn [length].
    f_equal; f_equal; simpl; lia.
Qed.

(** The third pass stores a value in every descriptor when the
    argument source supplies one of the type of each kind. *)
Lemma consume_one_supplied pl a v ap :
  fetchable (type a) v = true →
  ∃ a', consume_one pl a (v :: ap) = Normal (Stored a' ap)
        ∧ kind_and_span a' = kind_and_span a.
Proof.
  intros Hv. unfold consume_one.
  destruct (type a) eqn:Ht, v; try discriminate; simpl;
    (eexists; split; [reflexivity|]);
    unfold kind_and_span; simpl; by rewrite Ht.
Qed.

Lemma consume_pass_supplied pl todo done ap :
  supplies ap (map type todo) = true →
  ∃ todo', consume_pass pl done todo ap = Normal (Some (done ++ todo'))
           ∧ map kind_and_span todo' = map kind_and_span todo.
Proof.
  revert done ap. induction todo as [|a todo IH]; intros done ap Hap.
  { exists []. by rewrite app_nil_r. }
  destruct ap as [|v ap]; [discriminate|].
  change (fetchable (type a) v && supplies ap (map type todo) = true) in Hap.
  apply andb_true_iff in Hap as [Hv Hap].
  destruct (consume_one_supplied pl a v ap Hv) as (a' & Hone & Hk).
  cbn [consume_pass]. rewrite Hone. cbn [mbind outcome_bind].
  destruct (IH (done ++ [a']) ap Hap) as (todo' & -> & Hkinds).
  exists (a' :: todo'). rewrite <- app_assoc. split; [done|].
  simpl. by rewrite Hk, Hkinds.
Qed.

Lemma count_pass_nonneg p : 0 ≤ (count_pass p 0).1.
Proof.
  induction p as [p IH] using length_induction.
  destruct p as [|c p]; simpl; [done|].
  destruct (decide (c = NUL)); [done|].
  destruct (decide (c ≠ "%"%char)); [apply IH; simpl; lia|].
  destruct p as [|c' p]; simpl; [done|].
  destruct (decide (c' = "%"%char)); [apply IH; simpl; lia|].
  rewrite count_pass_shift. simpl.
  pose proof (IH p ltac:(simpl; lia)). lia.
Qed.

Lemma kinds_of_spans (l1 l2 : list printfArg) :
  map kind_and_span l1 = map kind_and_span l2 → map type l1 = map type l2.
Proof.
  intros H. apply (f_equal (map (λ k, k.1.1))) in H.
  by rewrite !map_map in H.
Qed.

(** C1, as amended.  A format string made of text, [%%] escapes and N
    supported specifiers, none of them with a flag before its width,
    is scanned to the success status with count N and N descriptors,
    in the order of the specifiers, each with the kind the mapping
    table gives its conversion character and length modifier, and with
    the span of its text. *)
Theorem supported_format_yields_table_kinds pl alloc ps ap :
  let fmt := string_of_list_ascii (render ps) in
  let n := length (specifiers ps) in
  forallb (well_formed pl) ps = true →
  alloc (Z.of_nat n) = true →
  supplies ap (map (table_kind pl) (specifiers ps)) = true →
  ∃ r, BuildArgArray pl alloc fmt ap = Normal r
       ∧ rv_out r = Z.of_nat n
       ∧ length (default [] (returned r)) = n
       ∧ map type (default [] (returned r))
         = map (table_kind pl) (specifiers ps)
       ∧ map kind_and_span (default [] (returned r))
         = map kind_and_span (descriptors pl (c_buffer fmt) 0 ps).
Proof.
  intros fmt n Hps Halloc Hap. subst n.
  unfold BuildArgArray. cbv zeta.
  assert (Hbuf : c_buffer fmt = render ps ++ [NUL]).
  { unfold c_buffer, fmt. by rewrite list_ascii_of_string_of_list_ascii. }
  rewrite !Hbuf. clear Hbuf. set (buf := render ps ++ [NUL]).
  unfold buf at 1. rewrite (count_pass_pieces pl) by done.
  cbn [count_pass]. rewrite decide_True by done.
  rewrite Z.add_0_l.
  case_decide as Hn.
  - eexists. split; [reflexivity|]. simpl.
    assert (length (specifiers ps) = 0%nat) as Hn0 by lia.
    assert (specifiers ps = []) as Hnil by (by apply length_zero_iff_nil).
    rewrite <- (descriptors_length pl buf 0 ps) in Hn0.
    apply length_zero_iff_nil in Hn0. rewrite Hnil, Hn0. repeat split; lia.
  - rewrite Halloc. cbn [negb]. rewrite Nat2Z.id.
    pose proof (render_length ps) as Hlen.
    assert (length buf = (length ps + S (length (render ps) - length ps))%nat)
      as Hfuel by (unfold buf; rewrite length_app; simpl; lia).
    rewrite Hfuel. unfold buf at 2.
    pose proof (classify_pass_pieces pl buf ps
                  (S (length (render ps) - length ps)) 0 [NUL] [] [] 0 Hps)
      as Hclass.
    rewrite app_nil_r in Hclass. cbn [app length] in Hclass.
    change (Z.of_nat 0 - 1) with (-1) in Hclass. rewrite Hclass.
    rewrite classify_pass_end. cbn [mbind outcome_bind rv nas].
    rewrite decide_False by lia. rewrite app_nil_r.
    destruct (consume_pass_supplied pl (descriptors pl buf 0 ps) [] ap)
      as (arr & -> & Harr).
    { by rewrite descriptors_kinds. }
    cbn [mbind outcome_bind app].
    eexists. split; [reflexivity|]. cbn [returned rv_out default from_option].
    unfold id.
    pose proof (kinds_of_spans _ _ Harr) as Hty.
    repeat split; [| |done].
    + rewrite <- (length_map type), Hty, length_map.
      apply descriptors_length.
    + rewrite Hty. apply descriptors_kinds.
Qed.

Lemma supported_format_yields_table_kinds_witness :
  string_of_list_ascii (render sample_pieces) = "%d and %lld%%, %5.2f %s"%string
  ∧ ∃ r, BuildArgArray LP64 (λ _, true) "%d and %lld%%, %5.2f %s"
           [va_int 42; va_int64_t 9000000000; va_double (Double 0);
            va_char_p "hello"] = Normal r
         ∧ rv_out r = 4
         ∧ map type (default [] (returned r))
           = [tidyFormatType_INTN; tidyFormatType_INT64;
              tidyFormatType_DOUBLE; tidyFormatType_STRING].
Proof.
  split; [reflexivity|].
  destruct (supported_format_yields_table_kinds LP64 (λ _, true) sample_pieces
              [va_int 42; va_int64_t 9000000000; va_double (Double 0);
               va_char_p "hello"] eq_refl eq_refl eq_refl)
    as (r & Hr & Hrv & _ & Hty & _).
  exists r. split; [exact Hr|]. split; [exact Hrv | exact Hty].
Defined.

(** C1, as stated, fails.  [%-5d] is a directive of the input format
    language: a flag, a fixed width, no length modifier, the
    conversion [d], nothing of it unsupported; the mapping table gives
    it the native integer kind.  The scanner has no flag block: it
    takes [-] for the conversion character, and the scan fails. *)
Lemma left_justified_is_refused :
  string_of_list_ascii (directive_text left_justified) = "%-5d"%string
  ∧ fixed_literals left_justified = true
  ∧ table_kind LP64 (rest_of_directive left_justified) = tidyFormatType_INTN
  ∧ BuildArgArray LP64 (λ _, true) "%-5d" [va_int 42]
    = Normal {| returned := None; rv_out := -1;
                heap := [EvAlloc 1; EvFree] |}.
Proof. repeat split. Qed.

(** The turn of the second loop at a specifier whose width or
    precision is a [*]. *)
Lemma classify_star pl buf f c mem off rest st :
  star_digits f = true →
  "%"%char :: c :: mem = star_text f ++ rest →
  classify_specifier pl buf c (Cursor off mem) st
  = Normal (Break (set_rv (-1) st)).
Proof.
  intros Hds Heq. unfold classify_specifier.
  destruct f as [|ds]; simpl in *.
  - injection Heq as -> ->. by rewrite decide_True.
  - injection Heq as Heq. rewrite <- app_assoc in Heq. simpl in Heq.
    rewrite decide_False; last first.
    { intros ->. destruct ds as [|d ds]; [discriminate|].
      simpl in Hds. apply andb_true_iff in Hds as [Hd _].
      injection Heq as Heq _. by rewrite <- Heq in Hd. }
    rewrite (skip_digits_run ds c mem off "."%char ("*"%char :: rest)) by done.
    reflexivity.
Qed.

Lemma star_head f rest :
  star_digits f = true →
  ∃ c mem, star_text f ++ rest = "%"%char :: c :: mem ∧ c ≠ "%"%char.
Proof.
  intros Hds. destruct f as [|[|d ds]]; simpl in *; try by eexists _, _.
  apply andb_true_iff in Hds as [Hd _].
  eexists _, _. split; [done|]. by intros ->.
Qed.

(** C2.  A format string in which a specifier gives its width or its
    precision as [*], behind any well-formed text and specifiers and
    before any text on which the first pass stays in the buffer, is
    scanned to the failure status: count -1 and no array.  The array
    that was allocated is released. *)
Theorem run_time_width_or_precision_fails pl alloc ps f rest ap :
  let fmt := string_of_list_ascii (render ps ++ star_text f ++ rest) in
  forallb (well_formed pl) ps = true →
  star_digits f = true →
  lone_percent_at_end (list_ascii_of_string fmt) = false →
  ∃ r number,
    BuildArgArray pl alloc fmt ap = Normal r
    ∧ returned r = None ∧ rv_out r = -1
    ∧ 0 < number
    ∧ heap r = if alloc number then [EvAlloc number; EvFree]
               else [EvAlloc number].
Proof.
  intros fmt Hps Hds Hwf.
  pose proof (count_pass_well_formed _ 0 Hwf) as Hcount.
  unfold fmt in Hwf, Hcount. rewrite list_ascii_of_string_of_list_ascii in *.
  unfold BuildArgArray, c_buffer. cbv zeta. unfold fmt.
  rewrite list_ascii_of_string_of_list_ascii.
  set (buf := (render ps ++ star_text f ++ rest) ++ [NUL]) in *.
  destruct (count_pass buf 0) as [number flag] eqn:Hnumber.
  simpl in Hcount. subst flag.
  destruct (star_head f rest Hds) as (c & mem & Hstar & Hpct).
  assert (Z.of_nat (length (specifiers ps)) < number) as Hmore.
  { unfold buf in Hnumber. rewrite <- !app_assoc in Hnumber.
    rewrite (count_pass_pieces pl) in Hnumber by done.
    rewrite (app_assoc (star_text f)), Hstar in Hnumber. simpl in Hnumber.
    rewrite decide_False in Hnumber by done.
    rewrite count_pass_shift in Hnumber. injection Hnumber as <- _.
    pose proof (count_pass_nonneg (mem ++ [NUL])). lia. }
  exists (if alloc number
          then {| returned := None; rv_out := -1;
                  heap := [EvAlloc number; EvFree] |}
          else {| returned := None; rv_out := -1; heap := [EvAlloc number] |}),
         number.
  rewrite decide_False by lia.
  destruct (alloc number); simpl; [|repeat split; lia].
  split; [|repeat split; lia].
  pose proof (render_length ps) as Hlen.
  assert (length buf = (length ps + S (length buf - length ps - 1))%nat)
    as Hfuel.
  { unfold buf. rewrite Hstar, !length_app. simpl. lia. }
  rewrite Hfuel.
  replace (Z.to_nat number)
    with (length (specifiers ps) + (Z.to_nat number - length (specifiers ps)))%nat
    by lia.
  rewrite replicate_add. unfold buf at 3. rewrite <- !app_assoc.
  pose proof (classify_pass_pieces pl buf ps
                (S (length buf - length ps - 1)) 0
                (star_text f ++ rest ++ [NUL]) []
                (replicate (Z.to_nat number - length (specifiers ps)) fresh_arg)
                0 Hps)
    as Hclass.
  cbn [app length] in Hclass. change (Z.of_nat 0 - 1) with (-1) in Hclass.
  rewrite Hclass.
  rewrite (app_assoc (star_text f)), Hstar. cbn [app].
  rewrite classify_pass_percent by done.
  rewrite (classify_star pl buf f c (mem ++ [NUL]) _ (rest ++ [NUL]))
    by (done || (by rewrite app_assoc, Hstar)).
  simpl. reflexivity.
Qed.

Lemma run_time_width_or_precision_fails_witness :
  string_of_list_ascii
    (render [Spec (plain_spec no_modifier conv_s); Text " "%char]
     ++ star_text star_width ++ ["d"%char]) = "%s %*d"%string
  ∧ ∃ r number,
      BuildArgArray LP64 (λ _, true) "%s %*d" [va_char_p "x"; va_int 3; va_int 4]
        = Normal r
      ∧ returned r = None ∧ rv_out r = -1
      ∧ 0 < number
      ∧ heap r = [EvAlloc number; EvFree].
Proof.
  split; [reflexivity|].
  apply (run_time_width_or_precision_fails LP64 (λ _, true)
           [Spec (plain_spec no_modifier conv_s); Text " "%char]
           star_width ["d"%char]); reflexivity.
Defined.

(** C10.  On a format string whose last character is a lone [%], the
    first pass counts that [%] as a specifier, takes the terminator for
    the character after it, and its next read is past the buffer; so
    [BuildArgArray] reaches the read outside the buffer and the scan is
    not defined there.  In the second pass too the read after that [%]
    takes the terminator and leaves the cursor behind the end of the
    buffer, where a further read would be outside it. *)
Theorem lone_percent_reaches_read_past_buffer pl alloc fmt ap :
  NUL ∉ list_ascii_of_string fmt →
  lone_percent_at_end (list_ascii_of_string fmt) = true →
  ∃ pre k,
    list_ascii_of_string fmt = pre ++ ["%"%char]
    ∧ count_pass (pre ++ [NUL]) 0 = (k, None)
    ∧ count_pass (c_buffer fmt) 0 = (k + 1, Some ReadPastBuffer)
    ∧ (∀ fuel off st,
         classify_pass pl (S fuel) (c_buffer fmt)
           (Cursor off ["%"%char; NUL]) st
         = classify_specifier pl (c_buffer fmt) NUL (Cursor (off + 1 + 1) []) st
           ≫= λ r, match r with
                   | Break st => mret st
                   | Continue p st => classify_pass pl fuel (c_buffer fmt) p st
                   end)
    ∧ (∀ off, deref_incr (Cursor off []) = Faulted ReadPastBuffer)
    ∧ BuildArgArray pl alloc fmt ap = Faulted ReadPastBuffer.
Proof.
  intros Hnul Hlone.
  destruct (lone_percent_last _ Hlone) as [pre Hpre].
  rewrite Hpre in Hnul, Hlone.
  destruct (count_pass_lone_percent pre 0) as (k & Hk & Hk').
  { intros Hin. apply Hnul. apply elem_of_app. by left. }
  { done. }
  assert (count_pass (c_buffer fmt) 0 = (k + 1, Some ReadPastBuffer)) as Hc.
  { unfold c_buffer. rewrite Hpre, <- app_assoc. exact Hk'. }
  exists pre, k. do 3 (split; [done|]). split; [|split].
  - intros fuel off st. by apply classify_pass_percent.
  - done.
  - unfold BuildArgArray. by rewrite Hc.
Qed.

Lemma lone_percent_reaches_read_past_buffer_witness :
  count_pass (c_buffer "50%") 0 = (1, Some ReadPastBuffer)
  ∧ BuildArgArray LP64 (λ _, true) "50%" [] = Faulted ReadPastBuffer.
Proof.
  destruct (lone_percent_reaches_read_past_buffer LP64 (λ _, true) "50%" [])
    as (pre & k & Hpre & Hk & Hk' & _ & _ & Hbuild).
  - intros Hin. by repeat (apply elem_of_cons in Hin as [Hin|Hin];
                           [discriminate|]); apply elem_of_nil in Hin.
  - reflexivity.
  - split; [reflexivity | exact Hbuild].
Defined.

(** Run by itself on ["%"], with the one descriptor the first pass
    counted, the second pass takes the terminator for the conversion
    character, finds the kind unknown and stops with the failure
    status, before any further read. *)
Example second_pass_stops_at_lone_percent :
  ∃ st, classify_pass LP64 (length (c_buffer "%")) (c_buffer "%")
          (Cursor 0 (c_buffer "%")) (ScanState (-1) [fresh_arg] 0)
        = Normal st
        ∧ rv st = -1.
Proof. eexists. split; reflexivity. Qed.

(** ** Which faults the scan can meet *)

Lemma count_pass_fault p number f :
  (count_pass p number).2 = Some f → f = ReadPastBuffer.
Proof.
  revert number. induction p as [p IH] using length_induction. intros number.
  destruct p as [|c p]; simpl; [by intros [= <-]|].
  destruct (decide (c = NUL)); [done|].
  destruct (decide (c ≠ "%"%char)); [apply IH; simpl; lia|].
  destruct p as [|c' p]; simpl; [by intros [= <-]|].
  destruct (decide (c' = "%"%char)); apply IH; simpl; lia.
Qed.

Lemma consume_one_fault pl a ap f :
  consume_one pl a ap = Faulted f → f = VaArgUndefined.
Proof.
  unfold consume_one. case_decide; [done|].
  destruct (type a), ap as [|[] ap]; try destruct (WIN32 pl);
    intros Hf; first [discriminate Hf | by injection Hf as <-].
Qed.

Lemma consume_pass_fault pl todo filled ap f :
  consume_pass pl filled todo ap = Faulted f → f = VaArgUndefined.
Proof.
  revert filled ap. induction todo as [|a todo IH]; intros filled ap; [done|].
  simpl. destruct (consume_one pl a ap) as [[|a' ap'|]|f'] eqn:Hone; simpl.
  - apply IH.
  - apply IH.
  - done.
  - intros [= <-]. by apply consume_one_fault in Hone.
Qed.

(** The fuel [BuildArgArray] gives the second pass is never used up. *)
Lemma BuildArgArray_fuel pl alloc fmt ap :
  BuildArgArray pl alloc fmt ap ≠ Faulted FuelExhausted.
Proof.
  unfold BuildArgArray. cbv zeta.
  destruct (count_pass (c_buffer fmt) 0) as [number [f|]] eqn:Hcount.
  { intros [= ->].
    by pose proof (count_pass_fault _ _ _ (f_equal snd Hcount)). }
  case_decide; [done|]. destruct (alloc number); simpl; [|done].
  pose proof (classify_pass_safe pl (c_buffer fmt) (length (c_buffer fmt))
                (Cursor 0 (c_buffer fmt))
                (ScanState (-1) (replicate (Z.to_nat number) fresh_arg) 0))
    as Hsafe.
  destruct (classify_pass _ _ _ _ _) as [st|f]; simpl.
  - case_decide; [done|].
    destruct (consume_pass pl [] (nas st) ap) as [[arr|]|f] eqn:Hcons;
      simpl; try done.
    intros [= ->]. by apply consume_pass_fault in Hcons.
  - intros [= ->]. discriminate Hsafe; [|done].
    unfold c_buffer. apply elem_of_app. right. apply list_elem_of_here.
Qed.

(** ** The scenarios of the specification *)

Example scan_d_and_s :
  BuildArgArray LP64 (λ _, true) "%d and %s" [va_int 42; va_char_p "hello"]
  = Normal {| returned := Some
      [ {| type := tidyFormatType_INTN; formatStart := 0; formatLength := 2;
           format := ["%"; "d"]%char; u := u_i 42 |};
        {| type := tidyFormatType_STRING; formatStart := 7; formatLength := 2;
           format := ["%"; "s"]%char; u := u_s "hello" |} ];
      rv_out := 2; heap := [EvAlloc 2] |}.
Proof. reflexivity. Qed.

Example scan_100_percent_done :
  BuildArgArray LP64 (λ _, true) "100%% done" []
  = Normal {| returned := None; rv_out := 0; heap := [] |}.
Proof. reflexivity. Qed.

Example scan_lld :
  BuildArgArray LP64 (λ _, true) "%lld" [va_int64_t 9000000000]
  = Normal {| returned := Some
      [ {| type := tidyFormatType_INT64; formatStart := 0; formatLength := 4;
           format := ["%"; "l"; "l"; "d"]%char; u := u_ll 9000000000 |} ];
      rv_out := 1; heap := [EvAlloc 1] |}.
Proof. reflexivity. Qed.

Example scan_star_d :
  BuildArgArray LP64 (λ _, true) "%*d" [va_int 3; va_int 4]
  = Normal {| returned := None; rv_out := -1; heap := [EvAlloc 1; EvFree] |}.
Proof. reflexivity. Qed.

(** The scanner has no flag block: a flag character is taken for the
    conversion character and the classification fails. *)
Example scan_flag :
  BuildArgArray LP64 (λ _, true) "%-5d" [va_int 42]
  = Normal {| returned := None; rv_out := -1; heap := [EvAlloc 1; EvFree] |}.
Proof. reflexivity. Qed.

(** ** The second pass stays inside the array *)

(** The characters a loop or block of the second pass steps over are
    plain: the first pass steps over each of them singly. *)
Lemma skip_digits_consumed c off mem c' p' :
  skip_digits c off mem = Normal (c', p') →
  ∃ pre, c :: mem = pre ++ c' :: p_mem p' ∧ forallb plain pre = true.
Proof.
  revert c off. induction mem as [|c1 mem IH]; intros c off; simpl.
  - destruct (is_digit c) eqn:Hd; [done|]. intros [= <- <-]. by exists [].
  - destruct (is_digit c) eqn:Hd.
    + intros H. apply IH in H as (pre & -> & Hpre).
      exists (c :: pre). split; [done|]. simpl.
      by rewrite (digit_is_plain c Hd).
    + intros [= <- <-]. by exists [].
Qed.

Lemma deref_incr_consumed p c' p' :
  deref_incr p = Normal (c', p') → p_mem p = c' :: p_mem p'.
Proof. destruct p as [off [|c m]]; simpl; [done|]. by intros [= <- <-]. Qed.

Lemma read_size_consumed pl c p t c' p' :
  read_size pl c p = Normal (t, c', p') →
  ∃ pre, c :: p_mem p = pre ++ c' :: p_mem p' ∧ forallb plain pre = true.
Proof.
  unfold read_size.
  assert (∀ (x : ascii) k,
            plain x = true →
            (deref_incr p ≫= λ '(c1, p1), mret (k, c1, p1))
              = Normal (t, c', p') →
            ∃ pre, x :: p_mem p = pre ++ c' :: p_mem p'
                   ∧ forallb plain pre = true) as Hone.
  { intros x k Hx.
    destruct (deref_incr p) as [[c1 p1]|] eqn:H1; simpl; [|done].
    apply deref_incr_consumed in H1 as ->.
    intros Hr; inversion Hr; subst. exists [x]. simpl. by rewrite Hx. }
  destruct (decide (c = "h"%char)) as [->|_]; [by apply Hone|].
  destruct (decide (c = "L"%char)) as [->|_]; [by apply Hone|].
  destruct (decide (c = "l"%char)) as [->|_].
  { clear Hone.
    destruct (deref_incr p) as [[c1 p1]|] eqn:H1; simpl; [|done].
    apply deref_incr_consumed in H1 as ->.
    destruct (decide (c1 = "l"%char)) as [->|_].
    - destruct (deref_incr p1) as [[c2 p2]|] eqn:H2; simpl; [|done].
      apply deref_incr_consumed in H2 as ->.
      intros Hr; inversion Hr; subst. by exists ["l"; "l"]%char.
    - intros Hr; inversion Hr; subst. by exists ["l"]%char. }
  destruct (decide (c = "z"%char)) as [->|_]; [by apply Hone|].
  intros Hr; inversion Hr; subst. by exists [].
Qed.

Lemma plain_conversion pl c t :
  conversion_type pl c t ≠ tidyFormatType_UNKNOWN → plain c = true.
Proof.
  intros Hknown. unfold plain.
  rewrite andb_true_iff, !bool_decide_eq_true.
  split; intros ->; by apply Hknown.
Qed.

(** The first pass counts the same behind plain characters. *)
Lemma count_pass_consumed c mem pre cf rest :
  c :: mem = pre ++ cf :: rest →
  forallb plain pre = true → plain cf = true →
  count_pass mem 0 = count_pass rest 0.
Proof.
  intros Heq Hpre Hcf. destruct pre as [|c0 pre]; simpl in *.
  - by injection Heq as _ ->.
  - injection Heq as _ ->. apply andb_true_iff in Hpre as [_ Hpre].
    rewrite (cons_middle cf), app_assoc. apply count_pass_plain.
    apply forallb_app_true; [done|]. simpl. by rewrite Hcf.
Qed.

Lemma update_current_in_range f st :
  0 ≤ cn st < Z.of_nat (length (nas st)) →
  ∃ a, update_current f st
       = Normal (ScanState (cn st)
                   (<[Z.to_nat (cn st) := f a]> (nas st)) (rv st)).
Proof.
  intros [Hlo Hhi]. unfold update_current. rewrite decide_True by done.
  destruct (lookup_lt_is_Some_2 (nas st) (Z.to_nat (cn st))) as [a ->]; [lia|].
  by exists a.
Qed.

Lemma update_current_inserted f n l a r :
  0 ≤ n < Z.of_nat (length l) →
  update_current f (ScanState n (<[Z.to_nat n := a]> l) r)
  = Normal (ScanState n (<[Z.to_nat n := f a]> l) r).
Proof.
  intros [Hlo Hhi]. unfold update_current. simpl.
  rewrite decide_True by done.
  rewrite list_lookup_insert_eq by lia. by rewrite list_insert_insert_eq.
Qed.

Lemma current_type_inserted n l a r :
  0 ≤ n < Z.of_nat (length l) →
  current_type (ScanState n (<[Z.to_nat n := a]> l) r) = type a.
Proof.
  intros [Hlo Hhi]. unfold current_type. simpl.
  by rewrite list_lookup_insert_eq by lia.
Qed.

(** One turn of the second loop with a free descriptor at hand: it
    does not fault; a turn that breaks leaves the failure status; a
    turn that goes on stepped over plain characters only and filled
    the next descriptor with a known kind. *)
Lemma classify_specifier_defined pl buf c p st :
  terminated c p →
  0 ≤ cn st + 1 < Z.of_nat (length (nas st)) →
  ∃ r, classify_specifier pl buf c p st = Normal r
       ∧ match r with
         | Continue p' st' =>
             count_pass (p_mem p') 0 = count_pass (p_mem p) 0
             ∧ ∃ a', type a' ≠ tidyFormatType_UNKNOWN
                     ∧ st' = ScanState (cn st + 1)
                               (<[Z.to_nat (cn st + 1) := a']> (nas st))
                               (rv st)
         | Break st' => rv st' = -1
         end.
Proof.
  intros Hterm Hrange. unfold classify_specifier.
  case_decide; [by eexists|].
  destruct p as [off mem]. cbn [p_off p_mem].
  destruct (skip_digits_terminated c off mem Hterm)
    as (c1 & p1 & Hskip & Hterm1 & _). rewrite Hskip. simpl.
  apply skip_digits_consumed in Hskip as (pre1 & Heq1 & Hpre1).
  assert (∃ prec,
    (if decide (c1 = "."%char)
     then deref_incr p1 ≫= λ '(c, p),
            if decide (c = "*"%char) then mret None
            else skip_digits c (p_off p) (p_mem p) ≫= λ r, mret (Some r)
     else mret (Some (c1, p1))) = Normal prec
    ∧ match prec with
      | Some (c2, p2) =>
          terminated c2 p2
          ∧ ∃ pre, c1 :: p_mem p1 = pre ++ c2 :: p_mem p2
                   ∧ forallb plain pre = true
      | None => True
      end) as (prec & -> & Hprec).
  { case_decide as Hdot.
    - destruct (deref_incr_terminated p1) as (c' & p' & Hread & Hterm' & _).
      { apply (terminated_ahead _ _ Hterm1). by subst. }
      rewrite Hread. apply deref_incr_consumed in Hread.
      simpl. case_decide; [by exists None|].
      destruct p' as [off' mem']. cbn [p_off p_mem] in *.
      destruct (skip_digits_terminated c' off' mem' Hterm')
        as (c2 & p2 & Hskip2 & Hterm2 & _). rewrite Hskip2. simpl.
      apply skip_digits_consumed in Hskip2 as (pre2 & Heq2 & Hpre2).
      exists (Some (c2, p2)). split; [done|]. split; [done|].
      exists (c1 :: pre2). rewrite Hread, Heq2. split; [done|].
      simpl. by rewrite Hpre2, Hdot.
    - exists (Some (c1, p1)). split; [done|]. split; [done|]. by exists []. }
  simpl. destruct prec as [[c2 p2]|]; [|by eexists].
  destruct Hprec as (Hterm2 & pre2 & Heq2 & Hpre2).
  destruct (update_current_in_range (set_type tidyFormatType_INTN)
              (ScanState (cn st + 1) (nas st) (rv st)))
    as (a & ->); [done|]. simpl.
  destruct (read_size_terminated pl c2 p2 Hterm2)
    as (t & c3 & p3 & Hsize & Hterm3 & _). rewrite Hsize. simpl.
  apply read_size_consumed in Hsize as (pre3 & Heq3 & Hpre3).
  rewrite update_current_inserted by done. simpl.
  rewrite update_current_inserted by done. simpl.
  rewrite update_current_inserted by done. simpl.
  case_decide; [by eexists|].
  rewrite update_current_inserted by done. simpl.
  rewrite current_type_inserted by done. simpl.
  case_decide as Hknown; [by eexists|].
  eexists. split; [reflexivity|]. simpl.
  split; [|eexists; split; [|reflexivity]; done].
  symmetry.
  apply (count_pass_consumed c mem (pre1 ++ pre2 ++ pre3) c3 (p_mem p3));
    [|by rewrite !forallb_app, Hpre1, Hpre2, Hpre3
     |by apply (plain_conversion pl c3 t)].
  rewrite Heq1, Heq2, Heq3. by rewrite <- !app_assoc.
Qed.

(** The turns of the first loop, by the characters at the cursor. *)
Lemma count_pass_text c p number :
  c ≠ NUL → c ≠ "%"%char → count_pass (c :: p) number = count_pass p number.
Proof. intros Hnul Hpct. simpl. by rewrite decide_False, decide_True. Qed.

Lemma count_pass_escape p number :
  count_pass ("%"%char :: "%"%char :: p) number = count_pass p number.
Proof. reflexivity. Qed.

Lemma count_pass_percent c p number :
  c ≠ "%"%char →
  count_pass ("%"%char :: c :: p) number = count_pass p (number + 1).
Proof. intros Hpct. simpl. by rewrite (decide_False (P := c = "%"%char)). Qed.

(** A turn that breaks has set the failure status. *)
Lemma classify_specifier_break pl buf c p st st' :
  classify_specifier pl buf c p st = Normal (Break st') → rv st' = -1.
Proof.
  unfold classify_specifier. case_decide; [by intros [= <-]|].
  destruct (skip_digits _ _ _) as [[c1 p1]|]; simpl; [|done].
  match goal with
  | |- mbind _ ?m = _ → _ => destruct m as [[[c2 p2]|]|]
  end; simpl; [|by intros [= <-]|done].
  destruct (update_current _ _) as [st1|]; simpl; [|done].
  destruct (read_size pl c2 p2) as [[[t c3] p3]|]; simpl; [|done].
  destruct (update_current _ st1) as [st2|]; simpl; [|done].
  destruct (update_current _ st2) as [st3|]; simpl; [|done].
  destruct (update_current _ st3) as [st4|]; simpl; [|done].
  case_decide; [by intros [= <-]|].
  destruct (update_current _ st4) as [st5|]; simpl; [|done].
  case_decide; [by intros [= <-]|done].
Qed.

(** With as many descriptors left as the first pass counts from the
    cursor on, the second pass ends without a fault; if it ends
    without the failure status, every descriptor has a known kind. *)
Lemma classify_pass_defined pl buf fuel p st :
  NUL ∈ p_mem p → (length (p_mem p) ≤ fuel)%nat → -1 ≤ cn st →
  cn st + 1 + (count_pass (p_mem p) 0).1 = Z.of_nat (length (nas st)) →
  (∀ j a, Z.of_nat j < cn st + 1 → nas st !! j = Some a →
          type a ≠ tidyFormatType_UNKNOWN) →
  ∃ st', classify_pass pl fuel buf p st = Normal st'
         ∧ (rv st' = rv st ∨ rv st' = -1)
         ∧ (¬ rv st' < 0 →
            length (nas st') = length (nas st)
            ∧ Forall (λ a, type a ≠ tidyFormatType_UNKNOWN) (nas st')).
Proof.
  revert p st.
  induction fuel as [|fuel IH]; intros p st Hnul Hlen Hcn Hroom Hfilled.
  - destruct (p_mem p); [by apply elem_of_nil in Hnul | simpl in Hlen; lia].
  - cbn [classify_pass].
    destruct (deref_incr_terminated p Hnul) as (c & p1 & Hread & Hterm1 & Hlen1).
    rewrite Hread. apply deref_incr_consumed in Hread. rewrite Hread in Hroom.
    cbn [mbind outcome_bind]. case_decide as Hc.
    { subst c. exists st. split; [done|]. split; [by left|].
      intros Hrv. split; [done|].
      apply Forall_lookup. intros j a Hj. apply (Hfilled j a); [|done].
      apply lookup_lt_Some in Hj. simpl in Hroom. lia. }
    pose proof (terminated_ahead _ _ Hterm1 Hc) as Hnul1.
    case_decide as Hpct.
    { rewrite count_pass_text in Hroom by done. apply IH; (done || lia). }
    subst c.
    destruct (deref_incr_terminated p1 Hnul1)
      as (c' & p2 & Hread' & Hterm2 & Hlen2).
    rewrite Hread'. apply deref_incr_consumed in Hread'.
    rewrite Hread' in Hroom. cbn [mbind outcome_bind]. case_decide as Hesc.
    + subst c'. rewrite count_pass_escape in Hroom.
      apply IH; try (done || lia). by apply (terminated_ahead _ _ Hterm2).
    + rewrite count_pass_percent, count_pass_shift in Hroom by done.
      simpl in Hroom.
      pose proof (count_pass_nonneg (p_mem p2)) as Hnonneg.
      destruct (classify_specifier_defined pl buf c' p2 st Hterm2)
        as (r & Hr & Hkeep); [lia|].
      pose proof (classify_specifier_safe pl buf c' p2 st Hterm2) as Hsafe.
      rewrite Hr in Hsafe |- *. cbn [mbind outcome_bind].
      destruct r as [st'|p' st'].
      { exists st'. apply classify_specifier_break in Hr.
        split; [done|]. split; [by right | lia]. }
      destruct Hsafe as [Hnul' Hlen'].
      destruct Hkeep as (Hcount & a' & Hknown & ->).
      destruct (IH p' (ScanState (cn st + 1)
                         (<[Z.to_nat (cn st + 1) := a']> (nas st)) (rv st)))
        as (st'' & Hrun & Hrv'' & Hend); simpl; try (done || lia).
      * rewrite Hcount, length_insert. lia.
      * intros j a Hj. destruct (decide (j = Z.to_nat (cn st + 1))) as [->|Hne].
        -- rewrite list_lookup_insert_eq by lia. by intros [= <-].
        -- rewrite list_lookup_insert_ne by done. apply Hfilled. lia.
      * exists st''. split; [done|]. split; [done|]. intros Hrv.
        destruct (Hend Hrv) as (Hlen'' & Hall).
        simpl in Hlen''. rewrite length_insert in Hlen''. by split.
Qed.

Lemma consume_pass_kinds pl todo filled ap arr :
  consume_pass pl filled todo ap = Normal (Some arr) →
  map kind_and_span arr = map kind_and_span (filled ++ todo).
Proof.
  revert filled ap. induction todo as [|a todo IH]; intros filled ap.
  { simpl. intros [= <-]. by rewrite app_nil_r. }
  simpl. destruct (consume_one pl a ap) as [[|a' ap'|]|f] eqn:Hone; simpl;
    [| |done|done].
  - intros H. apply IH in H. by rewrite <- app_assoc in H.
  - intros H. apply IH in H. rewrite <- app_assoc in H. rewrite H.
    rewrite !map_app. f_equal. simpl. f_equal.
    unfold consume_one in Hone. case_decide; [done|].
    destruct (type a) eqn:Ht, ap as [|[] ap]; try destruct (WIN32 pl);
      try discriminate; by injection Hone as <- _.
Qed.

Lemma known_of_kinds (l1 l2 : list printfArg) :
  map type l1 = map type l2 →
  Forall (λ a, type a ≠ tidyFormatType_UNKNOWN) l2 →
  Forall (λ a, type a ≠ tidyFormatType_UNKNOWN) l1.
Proof.
  revert l2. induction l1 as [|a l1 IH]; intros [|b l2] Heq Hall;
    simpl in *; try discriminate; [constructor|].
  injection Heq as Ha Hl. inversion Hall; subst.
  constructor; [by rewrite Ha | eauto].
Qed.

(** On every format string on which the first pass stays inside the
    buffer, [BuildArgArray] comes to a result, unless the argument
    source lacks a value the third pass fetches.  An array it returns
    has as many descriptors as the count says, none of unknown kind. *)
Theorem BuildArgArray_defined pl alloc fmt ap :
  (count_pass (c_buffer fmt) 0).2 = None →
  (∃ r, BuildArgArray pl alloc fmt ap = Normal r
        ∧ match returned r with
          | Some arr =>
              0 < rv_out r ∧ Z.of_nat (length arr) = rv_out r
              ∧ Forall (λ a, type a ≠ tidyFormatType_UNKNOWN) arr
          | None => rv_out r = 0 ∨ rv_out r = -1
          end)
  ∨ BuildArgArray pl alloc fmt ap = Faulted VaArgUndefined.
Proof.
  intros Hcount. unfold BuildArgArray. cbv zeta.
  destruct (count_pass (c_buffer fmt) 0) as [number flag] eqn:Hnumber.
  simpl in Hcount. subst flag.
  pose proof (count_pass_nonneg (c_buffer fmt)) as Hnonneg.
  rewrite Hnumber in Hnonneg. simpl in Hnonneg.
  case_decide; [left; eexists; split; [done|]; by left|].
  destruct (alloc number); simpl; [|left; eexists; split; [done|]; by right].
  destruct (classify_pass_defined pl (c_buffer fmt) (length (c_buffer fmt))
              (Cursor 0 (c_buffer fmt))
              (ScanState (-1) (replicate (Z.to_nat number) fresh_arg) 0))
    as (st & -> & Hrv' & Hend); simpl.
  - unfold c_buffer. apply elem_of_app. right. apply list_elem_of_here.
  - done.
  - done.
  - rewrite Hnumber, length_replicate. simpl. lia.
  - intros j a Hj. lia.
  - case_decide as Hrv.
    { left. eexists. split; [done|]. simpl. destruct Hrv'; simpl in *; lia. }
    destruct (Hend Hrv) as [Hlen Hall]. simpl in Hlen.
    rewrite length_replicate in Hlen.
    destruct (consume_pass pl [] (nas st) ap) as [[arr|]|f] eqn:Hcons; simpl.
    + left. eexists. split; [done|]. simpl.
      apply consume_pass_kinds in Hcons. simpl in Hcons.
      pose proof (kinds_of_spans _ _ Hcons) as Hty.
      split; [lia|]. split.
      * rewrite <- (length_map type), Hty, length_map. lia.
      * by apply (known_of_kinds arr (nas st)).
    + left. eexists. split; [done|]. by right.
    + right. by apply consume_pass_fault in Hcons as ->.
Qed.

(** ** What the third pass stores *)

Lemma consume_one_stored pl a ap a' ap' :
  consume_one pl a ap = Normal (Stored a' ap') →
  ∃ v, ap = v :: ap' ∧ a' = set_u (union_of v) a
       ∧ type a ∈ kinds_fetching pl v.
Proof.
  unfold consume_one. case_decide; [done|].
  destruct (type a) eqn:Ht, ap as [|[] ap];
    try destruct (WIN32 pl) eqn:Hw; try discriminate;
    intros [= <- <-]; eexists; (split; [done|]); (split; [done|]);
    simpl; rewrite ?Hw; rewrite list_elem_of_In; simpl; tauto.
Qed.

Lemma consume_one_not_skipped pl a ap :
  type a ≠ tidyFormatType_UNKNOWN → consume_one pl a ap ≠ Normal Skipped.
Proof.
  intros Hknown. unfold consume_one. rewrite decide_False by done.
  destruct (type a), ap as [|[] ap]; try destruct (WIN32 pl); done.
Qed.

(** With no descriptor of unknown kind, the third pass takes one value
    for each descriptor, in order, and changes the union only. *)
Lemma consume_pass_values pl todo filled ap arr :
  Forall (λ a, type a ≠ tidyFormatType_UNKNOWN) todo →
  consume_pass pl filled todo ap = Normal (Some arr) →
  ∃ vs rest,
    ap = vs ++ rest
    ∧ Forall2 (λ a v, type a ∈ kinds_fetching pl v) todo vs
    ∧ arr = filled ++ zip_with (λ a v, set_u (union_of v) a) todo vs.
Proof.
  revert filled ap. induction todo as [|a todo IH]; intros filled ap Hall.
  { simpl. intros [= <-]. exists [], ap. by rewrite app_nil_r. }
  inversion Hall as [|? ? Ha Hrest]; subst. simpl.
  destruct (consume_one pl a ap) as [[|a' ap'|]|f] eqn:Hone; simpl;
    [by apply consume_one_not_skipped in Hone| |done|done].
  intros H. apply IH in H as (vs & rest & -> & Hvs & ->); [|done].
  apply consume_one_stored in Hone as (v & -> & -> & Hv).
  exists (v :: vs), rest. split; [done|]. split; [by constructor|].
  by rewrite <- app_assoc.
Qed.



(** * Properties of message creation *)































(** * Properties of the accessors *)

Lemma argument_at_end m arr :
  arguments m = Some arr →
  argument_at m (Z.of_nat (length arr)) = Undefined ReadPastBuffer.
Proof.
  intros Harr. unfold argument_at. rewrite Harr.
  rewrite decide_True by lia. rewrite Nat2Z.id.
  by rewrite (lookup_ge_None_2 arr (length arr)).
Qed.

(** C5, at the failing index.  With [argcount] descriptors in the
    array, the index [argcount] passes [assert( argNum <= argcount )] in
    every getter, and the array is then read outside its bounds; no
    contract violation is raised. *)
Theorem index_argcount_passes_assert pl m arr :
  arguments m = Some arr →
  argcount m = Z.of_nat (length arr) →
  getArgType m (argcount m) = Undefined ReadPastBuffer
  ∧ getArgFormat m (argcount m) = Undefined ReadPastBuffer
  ∧ getArgValueString m (argcount m) = Undefined ReadPastBuffer
  ∧ getArgValueUInt pl m (argcount m) = Undefined ReadPastBuffer
  ∧ getArgValueInt pl m (argcount m) = Undefined ReadPastBuffer
  ∧ getArgValueDouble m (argcount m) = Undefined ReadPastBuffer.
Proof.
  intros Harr Hcount.
  unfold getArgType, getArgFormat, getArgValueString, getArgValueUInt,
    getArgValueInt, getArgValueDouble, assert.
  rewrite bool_decide_eq_true_2 by lia. simpl.
  rewrite Hcount, (argument_at_end m arr Harr). by repeat split.
Qed.

Lemma index_argcount_passes_assert_witness :
  ∃ m log,
    tidyMessageCreateInitV LP64 sample_ext quiet_doc 600 5 10 351
      [va_char_p "alt"] = Normal (m, log)
    ∧ argcount m = 1
    ∧ getArgValueString m 0 = Returned "alt"%string
    ∧ getArgValueString m 1 = Undefined ReadPastBuffer.
Proof.
  eexists _, _. split; [reflexivity|]. split; [reflexivity|].
  split; [reflexivity|].
  match goal with
  | |- getArgValueString ?m _ = _ =>
      exact (proj1 (proj2 (proj2 (index_argcount_passes_assert LP64 m _
               eq_refl eq_refl))))
  end.
Defined.

(** An index above [argcount] does fail the assertion, in every getter. *)
Lemma index_above_argcount_fails_assert pl m argNum :
  argcount m < argNum →
  getArgType m argNum = AssertionFailed
  ∧ getArgFormat m argNum = AssertionFailed
  ∧ getArgValueString m argNum = AssertionFailed
  ∧ getArgValueUInt pl m argNum = AssertionFailed
  ∧ getArgValueInt pl m argNum = AssertionFailed
  ∧ getArgValueDouble m argNum = AssertionFailed.
Proof.
  intros Habove.
  unfold getArgType, getArgFormat, getArgValueString, getArgValueUInt,
    getArgValueInt, getArgValueDouble, assert.
  rewrite bool_decide_eq_false_2 by lia. by repeat split.
Qed.

Lemma argument_at_lookup m arr argNum a :
  arguments m = Some arr → 0 ≤ argNum →
  arr !! Z.to_nat argNum = Some a →
  argument_at m argNum = Returned a.
Proof.
  intros Harr Hpos Ha. unfold argument_at.
  by rewrite Harr, decide_True, Ha by done.
Qed.

(** C4, at the failing input.  Where [int] is wider than 16 bits, a
    stored 16-bit value is refused by both integer getters: the guard
    [sizeof(int) <= sizeof(int16_t)] is false and the final [assert]
    fails. *)
Theorem narrower_value_fails_assert pl m arr argNum a :
  sizeof_int16_t < sizeof_int pl →
  arguments m = Some arr → 0 ≤ argNum ≤ argcount m →
  arr !! Z.to_nat argNum = Some a →
  (type a = tidyFormatType_INT16 →
     getArgValueInt pl m argNum = AssertionFailed)
  ∧ (type a = tidyFormatType_UINT16 →
     getArgValueInt pl m argNum = AssertionFailed
     ∧ getArgValueUInt pl m argNum = AssertionFailed).
Proof.
  intros Hsize Harr [Hlo Hhi] Ha.
  unfold getArgValueInt, getArgValueUInt, assert.
  rewrite bool_decide_eq_true_2 by done. simpl.
  rewrite (argument_at_lookup m arr argNum a) by done. simpl.
  unfold int_switch, uint_switch.
  split; [intros ->|intros ->; split]; by rewrite decide_False by lia.
Qed.

Lemma narrower_value_fails_assert_witness :
  ∃ m log,
    tidyMessageCreateInitV LP64 sample_ext quiet_doc 601 5 10 351
      [va_int 7] = Normal (m, log)
    ∧ getArgType m 0 = Returned tidyFormatType_INT16
    ∧ getArgValueInt LP64 m 0 = AssertionFailed.
Proof.
  eexists _, _. split; [reflexivity|]. split; [reflexivity|].
  match goal with
  | |- getArgValueInt _ ?m _ = _ =>
      refine (proj1 (narrower_value_fails_assert LP64 m _ 0 _ _ eq_refl _
                       eq_refl) eq_refl)
  end.
  - reflexivity.
  - split; discriminate.
Defined.

(** The same guard lets the opposite direction through: a stored 64-bit value
    is returned through the 32-bit [int] getter, cut to 32 bits. *)
Example wider_value_is_cut :
  ∃ m log,
    tidyMessageCreateInitV LP64 sample_ext quiet_doc 602 5 10 351
      [va_int64_t 4294967301] = Normal (m, log)
    ∧ getArgType m 0 = Returned tidyFormatType_INT64
    ∧ getArgValueInt LP64 m 0 = Returned 5.
Proof. eexists _, _. repeat split. Qed.

(** * Further properties of the scanner *)

(** ** The ways [BuildArgArray] ends *)

(** What lies behind a returned array. *)
Lemma BuildArgArray_returned pl alloc fmt ap r arr :
  BuildArgArray pl alloc fmt ap = Normal r → returned r = Some arr →
  ∃ number st,
    count_pass (c_buffer fmt) 0 = (number, None)
    ∧ 0 < number ∧ alloc number = true
    ∧ classify_pass pl (length (c_buffer fmt)) (c_buffer fmt)
        (Cursor 0 (c_buffer fmt))
        (ScanState (-1) (replicate (Z.to_nat number) fresh_arg) 0)
      = Normal st
    ∧ ¬ rv st < 0
    ∧ length (nas st) = Z.to_nat number
    ∧ Forall (λ a, type a ≠ tidyFormatType_UNKNOWN) (nas st)
    ∧ consume_pass pl [] (nas st) ap = Normal (Some arr)
    ∧ rv_out r = number ∧ heap r = [EvAlloc number].
Proof.
  unfold BuildArgArray. cbv zeta.
  destruct (count_pass (c_buffer fmt) 0) as [number [f|]] eqn:Hnumber;
    [discriminate|].
  pose proof (count_pass_nonneg (c_buffer fmt)) as Hnonneg.
  rewrite Hnumber in Hnonneg. simpl in Hnonneg.
  case_decide; [by intros [= <-]|].
  destruct (alloc number) eqn:Halloc; simpl; [|by intros [= <-]].
  destruct (classify_pass_defined pl (c_buffer fmt) (length (c_buffer fmt))
              (Cursor 0 (c_buffer fmt))
              (ScanState (-1) (replicate (Z.to_nat number) fresh_arg) 0))
    as (st & Hst & _ & Hend); simpl.
  { unfold c_buffer. apply elem_of_app. right. apply list_elem_of_here. }
  { done. }
  { done. }
  { rewrite Hnumber, length_replicate in *. simpl in *. lia. }
  { intros j a Hj. lia. }
  rewrite Hst. simpl.
  case_decide as Hrv; [by intros [= <-]|].
  destruct (consume_pass pl [] (nas st) ap) as [[arr'|]|f] eqn:Hcons; simpl;
    [|by intros [= <-]|discriminate].
  intros [= <-] [= <-]. exists number, st.
  destruct (Hend Hrv) as [Hlen Hall]. simpl in Hlen.
  rewrite length_replicate in Hlen.
  repeat split; (done || lia).
Qed.

(** X1.  However [BuildArgArray] is called, it ends in one of these
    ways.  It returns an array: then the status is the number of
    descriptors, which is positive, no descriptor is of unknown kind,
    and the one block allocated is the array.  It returns no array:
    then the status is 0 and nothing was allocated, or the status is -1
    and the block, if the allocator served it, was freed again.  It
    reads past the format buffer, which the first pass does and only
    the first pass.  Or [va_arg] finds no argument of the type asked
    for.  It never writes outside the array. *)
Theorem BuildArgArray_ends pl alloc fmt ap :
  match BuildArgArray pl alloc fmt ap with
  | Normal r =>
      (count_pass (c_buffer fmt) 0).2 = None
      ∧ match returned r with
        | Some arr =>
            0 < rv_out r ∧ Z.of_nat (length arr) = rv_out r
            ∧ Forall (λ a, type a ≠ tidyFormatType_UNKNOWN) arr
            ∧ alloc (rv_out r) = true ∧ heap r = [EvAlloc (rv_out r)]
        | None =>
            (rv_out r = 0 ∧ heap r = [])
            ∨ (rv_out r = -1
               ∧ ∃ number,
                   0 < number
                   ∧ heap r = if alloc number then [EvAlloc number; EvFree]
                              else [EvAlloc number])
        end
  | Faulted f =>
      (f = ReadPastBuffer
       ∧ (count_pass (c_buffer fmt) 0).2 = Some ReadPastBuffer)
      ∨ f = VaArgUndefined
  end.
Proof.
  destruct (BuildArgArray pl alloc fmt ap) as [r|f] eqn:Hrun.
  - assert ((count_pass (c_buffer fmt) 0).2 = None) as Hcount.
    { revert Hrun. unfold BuildArgArray. cbv zeta.
      by destruct (count_pass (c_buffer fmt) 0) as [number [f|]]. }
    split; [done|].
    destruct (returned r) as [arr|] eqn:Hret.
    + destruct (BuildArgArray_returned _ _ _ _ _ _ Hrun Hret)
        as (number & st & _ & Hpos & Halloc & _ & _ & Hlen & Hall & Hcons
            & Hrv & Hheap).
      rewrite Hrv, Hheap, Halloc.
      apply consume_pass_kinds in Hcons. simpl in Hcons.
      pose proof (kinds_of_spans _ _ Hcons) as Hty.
      repeat split; try done.
      * rewrite <- (length_map type), Hty, length_map. lia.
      * by apply (known_of_kinds arr (nas st)).
    + revert Hrun Hret. unfold BuildArgArray. cbv zeta.
      destruct (count_pass (c_buffer fmt) 0) as [number flag] eqn:Hnumber.
      simpl in Hcount. subst flag.
      pose proof (count_pass_nonneg (c_buffer fmt)) as Hnonneg.
      rewrite Hnumber in Hnonneg. simpl in Hnonneg.
      case_decide; [intros [= <-] _; by left|].
      destruct (alloc number) eqn:Halloc; simpl.
      2:{ intros [= <-] _. right. split; [done|]. exists number.
          rewrite Halloc. split; [lia|done]. }
      destruct (classify_pass_defined pl (c_buffer fmt)
                  (length (c_buffer fmt)) (Cursor 0 (c_buffer fmt))
                  (ScanState (-1) (replicate (Z.to_nat number) fresh_arg) 0))
        as (st & -> & Hrv' & _); simpl.
      { unfold c_buffer. apply elem_of_app. right. apply list_elem_of_here. }
      { done. }
      { done. }
      { rewrite Hnumber, length_replicate. simpl. lia. }
      { intros j a Hj. lia. }
      case_decide as Hrv.
      { intros [= <-] _. right. simpl. split; [destruct Hrv'; simpl in *; lia|].
        exists number. rewrite Halloc. split; [lia|done]. }
      destruct (consume_pass pl [] (nas st) ap) as [[arr|]|f]; simpl;
        [by intros [= <-]| |done].
      intros [= <-] _. right. split; [done|]. exists number.
      rewrite Halloc. split; [lia|done].
  - revert Hrun. unfold BuildArgArray. cbv zeta.
    destruct (count_pass (c_buffer fmt) 0) as [number [f0|]] eqn:Hnumber.
    { intros [= <-]. left.
      pose proof (count_pass_fault _ _ _ (f_equal snd Hnumber)) as ->.
      by split. }
    intros Hrun. right.
    destruct (BuildArgArray_defined pl alloc fmt ap) as [(r & Hr & _)|Hr].
    + by rewrite Hnumber.
    + unfold BuildArgArray in Hr. cbv zeta in Hr. rewrite Hnumber in Hr.
      rewrite Hr in Hrun. discriminate.
    + unfold BuildArgArray in Hr. cbv zeta in Hr. rewrite Hnumber in Hr.
      rewrite Hr in Hrun. by injection Hrun as <-.
Qed.

(** X2.  On a format string that holds no terminator of its own,
    [BuildArgArray] reads past the buffer exactly when the string ends
    in a lone [%]. *)
Theorem reads_past_buffer_iff_lone_percent pl alloc fmt ap :
  NUL ∉ list_ascii_of_string fmt →
  (BuildArgArray pl alloc fmt ap = Faulted ReadPastBuffer
   ↔ lone_percent_at_end (list_ascii_of_string fmt) = true).
Proof.
  intros Hnul. split.
  - intros Hrun.
    destruct (lone_percent_at_end (list_ascii_of_string fmt)) eqn:Hlone;
      [done|].
    apply (count_pass_well_formed _ 0) in Hlone.
    destruct (BuildArgArray_defined pl alloc fmt ap Hlone) as [(r & Hr & _)|Hr];
      rewrite Hr in Hrun; discriminate.
  - intros Hlone.
    destruct (lone_percent_last _ Hlone) as (pre & Hpre).
    rewrite Hpre in Hlone, Hnul.
    destruct (count_pass_lone_percent pre 0) as (k & _ & Hk); [|done|].
    { intros Hin. apply Hnul. apply elem_of_app. by left. }
    unfold BuildArgArray. cbv zeta. unfold c_buffer.
    rewrite Hpre, <- app_assoc. simpl. by rewrite Hk.
Qed.

Lemma reads_past_buffer_iff_lone_percent_witness :
  (NUL ∉ list_ascii_of_string "50%")
  ∧ (BuildArgArray LP64 (λ _, true) "50%" [] = Faulted ReadPastBuffer
     ↔ lone_percent_at_end (list_ascii_of_string "50%") = true).
Proof.
  assert (NUL ∉ list_ascii_of_string "50%") as Hnul.
  { rewrite list_elem_of_In. simpl. unfold NUL. intuition discriminate. }
  split; [exact Hnul|].
  exact (reads_past_buffer_iff_lone_percent LP64 (λ _, true) "50%" [] Hnul).
Defined.


(** The descriptor at an index of a returned array and the value at
    the same index of the argument source. *)
Lemma returned_lookup pl alloc fmt ap r arr i a :
  BuildArgArray pl alloc fmt ap = Normal r → returned r = Some arr →
  arr !! i = Some a →
  ∃ v d, ap !! i = Some v ∧ a = set_u (union_of v) d
         ∧ type d ∈ kinds_fetching pl v.
Proof.
  intros Hrun Hret Hi.
  destruct (BuildArgArray_returned _ _ _ _ _ _ Hrun Hret)
    as (number & st & _ & _ & _ & _ & _ & _ & Hall & Hcons & _).
  apply consume_pass_values in Hcons as (vs & rest & -> & Hvs & ->); [|done].
  simpl in Hi. apply lookup_zip_with_Some in Hi as (d & v & -> & Hd & Hv).
  exists v, d. split; [by apply lookup_app_l_Some|]. split; [done|].
  by apply (Forall2_lookup_lr _ _ _ _ _ _ Hvs Hd Hv).
Qed.

(** X3.  A returned array holds the arguments in their order: the
    descriptor at index [i] holds the [i]-th value of the argument
    source, in the union member of the value's type, and its kind is
    one for which the third pass fetches that type.  The source has at
    least as many values as the array has descriptors. *)
Theorem returned_array_holds_the_arguments pl alloc fmt ap r arr :
  BuildArgArray pl alloc fmt ap = Normal r → returned r = Some arr →
  (length arr ≤ length ap)%nat
  ∧ ∀ i a, arr !! i = Some a →
           ∃ v, ap !! i = Some v ∧ u a = union_of v
                ∧ type a ∈ kinds_fetching pl v.
Proof.
  intros Hrun Hret.
  assert (∀ i a, arr !! i = Some a →
            ∃ v, ap !! i = Some v ∧ u a = union_of v
                 ∧ type a ∈ kinds_fetching pl v) as Hvalues.
  { intros i a Hi.
    destruct (returned_lookup _ _ _ _ _ _ _ _ Hrun Hret Hi)
      as (v & d & Hv & -> & Hkind).
    by exists v. }
  split; [|done].
  destruct (decide (length arr ≤ length ap)%nat) as [|Hlong]; [done|].
  destruct (lookup_lt_is_Some_2 arr (length ap)) as [a Ha]; [lia|].
  destruct (Hvalues _ _ Ha) as (v & Hv & _).
  apply lookup_lt_Some in Hv. lia.
Qed.

Lemma returned_array_holds_the_arguments_witness :
  ∃ r arr,
    BuildArgArray LP64 (λ _, true) "%d and %s" [va_int 42; va_char_p "hello"]
      = Normal r
    ∧ returned r = Some arr
    ∧ (length arr ≤ 2)%nat
    ∧ ∀ i a, arr !! i = Some a →
             ∃ v, [va_int 42; va_char_p "hello"] !! i = Some v
                  ∧ u a = union_of v ∧ type a ∈ kinds_fetching LP64 v.
Proof.
  eexists _, _. split; [reflexivity|]. split; [reflexivity|].
  exact (returned_array_holds_the_arguments LP64 (λ _, true) "%d and %s"
           [va_int 42; va_char_p "hello"] _ _ eq_refl eq_refl).
Defined.

(** ** Where the spans lie *)

(** How far a block of the second pass moves the cursor. *)
Lemma deref_incr_offset p c p' :
  deref_incr p = Normal (c, p') → p_off p' = p_off p + 1.
Proof. destruct p as [off [|c0 m]]; simpl; [done|]. by intros [= <- <-]. Qed.

Lemma skip_digits_offset c off mem c' p' :
  skip_digits c off mem = Normal (c', p') →
  p_off p' = off + Z.of_nat (length mem) - Z.of_nat (length (p_mem p')).
Proof.
  revert c off. induction mem as [|c1 mem IH]; intros c off; simpl.
  - destruct (is_digit c); [done|]. intros [= <- <-]. simpl. lia.
  - destruct (is_digit c).
    + intros H. apply IH in H. lia.
    + intros [= <- <-]. simpl. lia.
Qed.

Lemma read_size_offset pl c p t c' p' :
  read_size pl c p = Normal (t, c', p') →
  p_off p' = p_off p + Z.of_nat (length (p_mem p))
             - Z.of_nat (length (p_mem p')).
Proof.
  unfold read_size.
  assert (∀ k, (deref_incr p ≫= λ '(c1, p1), mret (k, c1, p1))
               = Normal (t, c', p') →
               p_off p' = p_off p + Z.of_nat (length (p_mem p))
                          - Z.of_nat (length (p_mem p'))) as Hone.
  { intros k. destruct (deref_incr p) as [[c1 p1]|] eqn:H1; simpl; [|done].
    pose proof (deref_incr_offset _ _ _ H1).
    apply deref_incr_consumed in H1 as Hm. rewrite Hm.
    intros Hr; inversion Hr; subst. simpl. lia. }
  destruct (decide (c = "h"%char)); [by apply Hone|].
  destruct (decide (c = "L"%char)); [by apply Hone|].
  destruct (decide (c = "l"%char)).
  { clear Hone.
    destruct (deref_incr p) as [[c1 p1]|] eqn:H1; simpl; [|done].
    pose proof (deref_incr_offset _ _ _ H1).
    apply deref_incr_consumed in H1 as Hm. rewrite Hm.
    destruct (decide (c1 = "l"%char)).
    - destruct (deref_incr p1) as [[c2 p2]|] eqn:H2; simpl; [|done].
      pose proof (deref_incr_offset _ _ _ H2).
      apply deref_incr_consumed in H2 as Hm2. rewrite Hm2.
      intros Hr; inversion Hr; subst. simpl. lia.
    - intros Hr; inversion Hr; subst. simpl. lia. }
  destruct (decide (c = "z"%char)); [by apply Hone|].
  intros Hr; inversion Hr; subst. lia.
Qed.

(** The precision block of [classify_specifier]. *)
Lemma precision_consumed c1 p1 c2 p2 :
  (if decide (c1 = "."%char)
   then deref_incr p1 ≫= λ '(c, p),
          if decide (c = "*"%char) then mret None
          else skip_digits c (p_off p) (p_mem p) ≫= λ r, mret (Some r)
   else mret (Some (c1, p1))) = Normal (Some (c2, p2)) →
  (∃ pre, c1 :: p_mem p1 = pre ++ c2 :: p_mem p2 ∧ forallb plain pre = true)
  ∧ p_off p2 = p_off p1 + Z.of_nat (length (p_mem p1))
               - Z.of_nat (length (p_mem p2)).
Proof.
  case_decide as Hdot.
  - destruct (deref_incr p1) as [[c p]|] eqn:Hread; simpl; [|done].
    pose proof (deref_incr_offset _ _ _ Hread) as Hoff.
    apply deref_incr_consumed in Hread.
    case_decide; [done|].
    destruct (skip_digits c (p_off p) (p_mem p)) as [[c' p']|] eqn:Hskip;
      simpl; [|done].
    intros [= <- <-].
    pose proof (skip_digits_offset _ _ _ _ _ Hskip) as Hoff'.
    apply skip_digits_consumed in Hskip as (pre & Heq & Hpre).
    split.
    + exists (c1 :: pre). rewrite Hread, Heq. split; [done|].
      simpl. by rewrite Hpre, Hdot.
    + rewrite Hread. simpl. lia.
  - intros [= <- <-]. split; [by exists []|lia].
Qed.

(** [strncpy] of [n] bytes with no terminator among them copies them. *)
Lemma strncpy_exact l rest :
  NUL ∉ l → strncpy (l ++ rest) (length l) = l.
Proof.
  induction l as [|c l IH]; [intros _; by destruct rest|]. intros Hnul. simpl.
  rewrite decide_False.
  - f_equal. apply IH. intros Hin. apply Hnul. by apply list_elem_of_further.
  - intros ->. apply Hnul. apply list_elem_of_here.
Qed.

Lemma plain_no_NUL l : forallb plain l = true → NUL ∉ l.
Proof.
  induction l as [|c l IH]; simpl; [intros _; apply not_elem_of_nil|].
  rewrite andb_true_iff. intros [Hc Hl]. apply not_elem_of_cons.
  split; [|by apply IH].
  unfold plain in Hc. rewrite andb_true_iff, !bool_decide_eq_true in Hc.
  intros Heq. by apply (proj2 Hc).
Qed.

(** The kinds the size block leaves are signed or unknown, and the
    format block turns them unsigned at [p] only. *)
Lemma read_size_kinds pl c p t c' p' :
  read_size pl c p = Normal (t, c', p') →
  t ∈ [tidyFormatType_INTN; tidyFormatType_INT16; tidyFormatType_INT32;
       tidyFormatType_INT64; tidyFormatType_UNKNOWN].
Proof.
  unfold read_size. rewrite list_elem_of_In.
  repeat case_decide;
    repeat (destruct (deref_incr _) as [[? ?]|]; simpl; [|done];
            try case_decide);
    intros Hr; inversion Hr; subst; simpl; tauto.
Qed.

Lemma conversion_type_unsigned pl c t :
  t ∈ [tidyFormatType_INTN; tidyFormatType_INT16; tidyFormatType_INT32;
       tidyFormatType_INT64; tidyFormatType_UNKNOWN] →
  conversion_type pl c t
    ∈ [tidyFormatType_UINTN; tidyFormatType_UINT16; tidyFormatType_UINT32;
       tidyFormatType_UINT64] →
  c = "p"%char.
Proof.
  rewrite !list_elem_of_In. simpl. unfold conversion_type.
  intros Ht.
  repeat match goal with
         | |- context [decide (c = ?x)] =>
             destruct (decide (c = x)) as [->|_]
         end; try done;
    try destruct (WIN32 pl);
    intuition (try discriminate; try congruence).
Qed.

(** A turn of the second loop that goes on has filled the next
    descriptor with the span of the specifier it stepped over: the span
    starts at the [%], ends at the cursor, and [format] holds its
    bytes. *)
Lemma classify_specifier_span pl buf c p st p' st' :
  classify_specifier pl buf c p st = Normal (Continue p' st') →
  2 ≤ p_off p →
  drop (Z.to_nat (p_off p - 2)) buf = "%"%char :: c :: p_mem p →
  ∃ a',
    0 ≤ cn st + 1 < Z.of_nat (length (nas st))
    ∧ st' = ScanState (cn st + 1)
              (<[Z.to_nat (cn st + 1) := a']> (nas st)) (rv st)
    ∧ span_ok buf a'
    ∧ formatStart a' = p_off p - 2
    ∧ formatStart a' + formatLength a' = p_off p'
    ∧ cursor_at buf p'.
Proof.
  unfold classify_specifier. case_decide; [done|].
  destruct p as [off mem]. cbn [p_off p_mem]. intros Hrun Hoff Hbuf.
  destruct (skip_digits c off mem) as [[c1 p1]|] eqn:Hskip; simpl in Hrun;
    [|done].
  pose proof (skip_digits_offset _ _ _ _ _ Hskip) as Hoff1.
  apply skip_digits_consumed in Hskip as (pre1 & Heq1 & Hpre1).
  match type of Hrun with
  | mbind _ ?m = _ => destruct m as [[[c2 p2]|]|] eqn:Hprec
  end; simpl in Hrun; [|done|done].
  apply precision_consumed in Hprec as [(pre2 & Heq2 & Hpre2) Hoff2].
  destruct (update_current (set_type tidyFormatType_INTN)
              (ScanState (cn st + 1) (nas st) (rv st))) as [st1|] eqn:Hup;
    simpl in Hrun; [|done].
  assert (0 ≤ cn st + 1 < Z.of_nat (length (nas st))) as Hrange.
  { revert Hup. unfold update_current. simpl. case_decide; [|done].
    destruct (nas st !! Z.to_nat (cn st + 1)) as [a|] eqn:Ha; [|done].
    apply lookup_lt_Some in Ha. lia. }
  destruct (update_current_in_range (set_type tidyFormatType_INTN)
              (ScanState (cn st + 1) (nas st) (rv st)) Hrange) as (a & Hup').
  rewrite Hup' in Hup. injection Hup as <-. simpl in Hrun.
  destruct (read_size pl c2 p2) as [[[t c3] p3]|] eqn:Hsize; simpl in Hrun;
    [|done].
  pose proof (read_size_offset _ _ _ _ _ _ Hsize) as Hoff3.
  pose proof (read_size_kinds _ _ _ _ _ _ Hsize) as Hsigned.
  apply read_size_consumed in Hsize as (pre3 & Heq3 & Hpre3).
  rewrite update_current_inserted in Hrun by done. simpl in Hrun.
  rewrite update_current_inserted in Hrun by done. simpl in Hrun.
  rewrite update_current_inserted in Hrun by done. simpl in Hrun.
  case_decide as Hlong; [done|].
  rewrite update_current_inserted in Hrun by done. simpl in Hrun.
  rewrite current_type_inserted in Hrun by done. simpl in Hrun.
  case_decide as Hknown; [done|].
  injection Hrun as <- <-.
  (* the characters of the specifier *)
  assert (c :: mem = (pre1 ++ pre2 ++ pre3) ++ c3 :: p_mem p3) as Hall.
  { rewrite Heq1, Heq2, Heq3. by rewrite <- !app_assoc. }
  assert (forallb plain (pre1 ++ pre2 ++ pre3) = true) as Hpre.
  { by rewrite !forallb_app, Hpre1, Hpre2, Hpre3. }
  set (pre := pre1 ++ pre2 ++ pre3) in *.
  pose proof (plain_conversion pl c3 t Hknown) as Hc3.
  assert (p_off p3 = off + Z.of_nat (length pre)) as Hend.
  { apply (f_equal length) in Hall, Heq1, Heq2, Heq3.
    rewrite ?length_app in *. simpl in *. rewrite ?length_app in *. lia. }
  set (text := "%"%char :: pre ++ [c3]).
  assert (drop (Z.to_nat (off - 2)) buf = text ++ p_mem p3) as Htext.
  { rewrite Hbuf, Hall. unfold text. simpl. by rewrite <- app_assoc. }
  assert (p_off p3 - (off - 2) = Z.of_nat (length text)) as Hlen.
  { unfold text. simpl. rewrite length_app. simpl. lia. }
  assert (NUL ∉ text) as Hnul.
  { unfold text. apply not_elem_of_cons. split; [done|].
    apply plain_no_NUL. rewrite forallb_app. simpl. by rewrite Hpre, Hc3. }
  eexists. split; [done|]. split; [reflexivity|].
  unfold span_ok. cbn [formatStart formatLength format set_format set_span
                       set_type type].
  rewrite Hlen, Nat2Z.id, Htext, strncpy_exact by done.
  rewrite take_app_length.
  assert (conversion_type pl c3 t
            ∈ [tidyFormatType_UINTN; tidyFormatType_UINT16;
               tidyFormatType_UINT32; tidyFormatType_UINT64] →
          last text = Some "p"%char) as Hp.
  { intros Hu. apply (conversion_type_unsigned pl c3 t Hsigned) in Hu as ->.
    unfold text. by rewrite app_comm_cons, last_snoc. }
  repeat split; try (done || lia).
  replace (Z.to_nat (p_off p3)) with (Z.to_nat (off - 2) + length text)%nat
    by lia.
    by rewrite <- drop_drop, Htext, drop_app_length.
Qed.

Lemma cursor_at_next buf p c p' :
  cursor_at buf p → deref_incr p = Normal (c, p') → cursor_at buf p'.
Proof.
  intros [Hoff Hbuf] Hread.
  pose proof (deref_incr_offset _ _ _ Hread) as Hoff'.
  apply deref_incr_consumed in Hread. split; [lia|].
  rewrite Hoff'.
  replace (Z.to_nat (p_off p + 1)) with (Z.to_nat (p_off p) + 1)%nat by lia.
  by rewrite <- drop_drop, Hbuf, Hread.
Qed.

Lemma cursor_at_inside buf p :
  cursor_at buf p → p_mem p ≠ [] → p_off p < Z.of_nat (length buf).
Proof.
  intros [Hoff Hbuf] Hne.
  destruct (decide (p_off p < Z.of_nat (length buf))); [done|].
  rewrite drop_ge in Hbuf by lia. by symmetry in Hbuf.
Qed.

Lemma spans_upto_mono buf n lim lim' l :
  lim ≤ lim' → spans_upto buf n lim l → spans_upto buf n lim' l.
Proof.
  intros Hle [Hspan Hsorted]. split; [|done].
  intros j a Hj Ha. destruct (Hspan j a Hj Ha). split; [done|lia].
Qed.

(** Filling the next descriptor with a span that starts where the
    earlier ones have ended. *)
Lemma spans_upto_insert buf n lim l a' lim' :
  spans_upto buf n lim l → (n < length l)%nat → span_ok buf a' →
  lim ≤ formatStart a' → formatStart a' + formatLength a' ≤ lim' →
  spans_upto buf (S n) lim' (<[n := a']> l).
Proof.
  intros [Hspan Hsorted] Hn Hok Hstart Hend.
  assert (lim ≤ lim') as Hle.
  { destruct Hok as (_ & Hlen & _). lia. }
  split.
  - intros j a Hj. destruct (decide (j = n)) as [->|Hne].
    + rewrite list_lookup_insert_eq by done. by intros [= <-].
    + rewrite list_lookup_insert_ne by done. intros Ha.
      destruct (Hspan j a) as [? ?]; [lia|done|]. split; [done|lia].
  - intros j a b Hj. rewrite list_lookup_insert_ne by lia. intros Ha.
    destruct (decide (S j = n)) as [<-|Hne].
    + rewrite list_lookup_insert_eq by done. intros [= <-].
      destruct (Hspan j a) as [? ?]; [lia|done|]. lia.
    + rewrite list_lookup_insert_ne by done. apply Hsorted; [lia|done].
Qed.

(** The second pass, when it ends without the failure status, has
    given every descriptor a span inside the format string; the spans
    follow one another in the order of the descriptors. *)
Lemma classify_pass_spans pl buf fuel p st st' :
  NUL ∈ p_mem p → (length (p_mem p) ≤ fuel)%nat → -1 ≤ cn st →
  cn st + 1 + (count_pass (p_mem p) 0).1 = Z.of_nat (length (nas st)) →
  cursor_at buf p →
  spans_upto buf (Z.to_nat (cn st + 1)) (p_off p) (nas st) →
  classify_pass pl fuel buf p st = Normal st' → ¬ rv st' < 0 →
  ∃ lim, lim < Z.of_nat (length buf)
         ∧ spans_upto buf (length (nas st')) lim (nas st').
Proof.
  revert p st.
  induction fuel as [|fuel IH]; intros p st Hnul Hlen Hcn Hroom Hat Hspans.
  - destruct (p_mem p); [by apply elem_of_nil in Hnul | simpl in Hlen; lia].
  - cbn [classify_pass].
    destruct (deref_incr_terminated p Hnul) as (c & p1 & Hread & Hterm1 & Hlen1).
    rewrite Hread.
    pose proof (cursor_at_next _ _ _ _ Hat Hread) as Hat1.
    pose proof (deref_incr_offset _ _ _ Hread) as Hoff1.
    apply deref_incr_consumed in Hread as Hmem. rewrite Hmem in Hroom.
    cbn [mbind outcome_bind]. case_decide as Hc.
    { subst c. intros [= <-] Hrv. exists (p_off p). split.
      - apply cursor_at_inside; [done|]. by rewrite Hmem.
      - simpl in Hroom.
        by replace (length (nas st)) with (Z.to_nat (cn st + 1)) by lia. }
    pose proof (terminated_ahead _ _ Hterm1 Hc) as Hnul1.
    case_decide as Hpct.
    { rewrite count_pass_text in Hroom by done.
      apply IH; try (done || lia).
      apply (spans_upto_mono _ _ (p_off p)); [lia|done]. }
    subst c.
    destruct (deref_incr_terminated p1 Hnul1)
      as (c' & p2 & Hread' & Hterm2 & Hlen2).
    rewrite Hread'.
    pose proof (cursor_at_next _ _ _ _ Hat1 Hread') as Hat2.
    pose proof (deref_incr_offset _ _ _ Hread') as Hoff2.
    apply deref_incr_consumed in Hread' as Hmem'.
    rewrite Hmem' in Hroom. cbn [mbind outcome_bind]. case_decide as Hesc.
    + subst c'. rewrite count_pass_escape in Hroom.
      apply IH; try (done || lia).
      * by apply (terminated_ahead _ _ Hterm2).
      * apply (spans_upto_mono _ _ (p_off p)); [lia|done].
    + rewrite count_pass_percent, count_pass_shift in Hroom by done.
      simpl in Hroom.
      pose proof (count_pass_nonneg (p_mem p2)) as Hnonneg.
      destruct (classify_specifier_defined pl buf c' p2 st Hterm2)
        as (r & Hr & Hkeep); [lia|].
      pose proof (classify_specifier_safe pl buf c' p2 st Hterm2) as Hsafe.
      rewrite Hr in Hsafe |- *. cbn [mbind outcome_bind].
      destruct r as [stb|p' st1].
      { intros [= <-] Hrv. apply classify_specifier_break in Hr. lia. }
      destruct Hsafe as [Hnul' Hlen'].
      destruct Hkeep as (Hcount & _).
      pose proof (proj1 Hat) as Hoff0.
      destruct (classify_specifier_span _ _ _ _ _ _ _ Hr)
        as (a' & Hrange & -> & Hok & Hstart & Hend & Hat'); [lia| |].
      { destruct Hat as [Hoff Hbuf].
        replace (p_off p2 - 2) with (p_off p) by lia.
        by rewrite Hbuf, Hmem, Hmem'. }
      apply IH; simpl; try (done || lia).
      * rewrite Hcount, length_insert. lia.
      * replace (Z.to_nat (cn st + 1 + 1)) with (S (Z.to_nat (cn st + 1)))
          by lia.
        apply (spans_upto_insert _ _ (p_off p)); (done || lia).
Qed.

(** The spans of a returned array. *)
Lemma BuildArgArray_spans pl alloc fmt ap r arr :
  BuildArgArray pl alloc fmt ap = Normal r → returned r = Some arr →
  ∃ lim, lim < Z.of_nat (length (c_buffer fmt))
         ∧ spans_upto (c_buffer fmt) (length arr) lim arr.
Proof.
  intros Hrun Hret.
  destruct (BuildArgArray_returned _ _ _ _ _ _ Hrun Hret)
    as (number & st & Hnumber & Hpos & _ & Hst & Hrv & Hlen & Hall & Hcons & _).
  destruct (classify_pass_spans pl (c_buffer fmt) (length (c_buffer fmt))
              (Cursor 0 (c_buffer fmt))
              (ScanState (-1) (replicate (Z.to_nat number) fresh_arg) 0) st)
    as (lim & Hlim & Hspan & Hsorted); simpl; try done.
  { unfold c_buffer. apply elem_of_app. right. apply list_elem_of_here. }
  { rewrite Hnumber, length_replicate. simpl. lia. }
  { split; intros; lia. }
  apply consume_pass_values in Hcons as (vs & rest & -> & Hvs & ->); [|done].
  simpl. exists lim. split; [done|]. split.
  - intros i a _ Hi.
    apply lookup_zip_with_Some in Hi as (d & v & -> & Hd & Hv).
    apply (Hspan i d); [by apply lookup_lt_Some in Hd | done].
  - intros i a b _ Hi Hj.
    apply lookup_zip_with_Some in Hi as (d & v & -> & Hd & Hv).
    apply lookup_zip_with_Some in Hj as (e & w & -> & He & Hw). simpl.
    apply (Hsorted i d e); [by apply lookup_lt_Some in He | done | done].
Qed.

(** X4.  In a returned array every descriptor's span lies inside the
    format string and is between 2 and 20 characters long; the
    [format] field holds exactly the characters of the span, which
    start with [%] and include no terminator; and the spans follow one
    another, without overlap, in the order of the descriptors. *)
Theorem spans_locate_the_specifiers pl alloc fmt ap r arr :
  BuildArgArray pl alloc fmt ap = Normal r → returned r = Some arr →
  let text := list_ascii_of_string fmt in
  (∀ i a, arr !! i = Some a →
     0 ≤ formatStart a ∧ 2 ≤ formatLength a < FORMAT_LENGTH
     ∧ formatStart a + formatLength a ≤ Z.of_nat (length text)
     ∧ format a = take (Z.to_nat (formatLength a))
                       (drop (Z.to_nat (formatStart a)) text)
     ∧ head (format a) = Some "%"%char ∧ NUL ∉ format a)
  ∧ (∀ i a b, arr !! i = Some a → arr !! S i = Some b →
       formatStart a + formatLength a ≤ formatStart b).
Proof.
  intros Hrun Hret text.
  destruct (BuildArgArray_spans _ _ _ _ _ _ Hrun Hret)
    as (lim & Hlim & Hspan & Hsorted).
  unfold c_buffer in *. fold text in Hlim, Hspan, Hsorted.
  rewrite length_app in Hlim. simpl in Hlim.
  split.
  - intros i a Hi.
    destruct (Hspan i a)
      as [(Hstart & Hlength & Hformat & Hhead & Hnul & _) Hend];
      [by apply lookup_lt_Some in Hi | done |].
    repeat split; try (done || lia).
    rewrite Hformat, drop_app_le by lia.
    apply take_app_le. rewrite length_drop. lia.
  - intros i a b Hi Hj.
    apply (Hsorted i a b); [by apply lookup_lt_Some in Hj | done | done].
Qed.

Lemma spans_locate_the_specifiers_witness :
  ∃ r arr,
    BuildArgArray LP64 (λ _, true) "%d and %5.2f" [va_int 42; va_double (Double 0)]
      = Normal r
    ∧ returned r = Some arr
    ∧ map format arr = [["%"; "d"]; ["%"; "5"; "."; "2"; "f"]]%char
    ∧ (∀ i a, arr !! i = Some a →
         0 ≤ formatStart a ∧ 2 ≤ formatLength a < FORMAT_LENGTH
         ∧ formatStart a + formatLength a ≤ 12
         ∧ format a = take (Z.to_nat (formatLength a))
                           (drop (Z.to_nat (formatStart a))
                                 (list_ascii_of_string "%d and %5.2f"))
         ∧ head (format a) = Some "%"%char ∧ NUL ∉ format a)
    ∧ (∀ i a b, arr !! i = Some a → arr !! S i = Some b →
         formatStart a + formatLength a ≤ formatStart b).
Proof.
  eexists _, _. split; [reflexivity|]. split; [reflexivity|].
  split; [reflexivity|].
  exact (spans_locate_the_specifiers LP64 (λ _, true) "%d and %5.2f"
           [va_int 42; va_double (Double 0)] _ _ eq_refl eq_refl).
Defined.

(** ** Specifiers the scanner gives up on *)

(** The size block on the text of a modifier and the character behind it. *)
Lemma read_size_stem pl m k off rest y mem :
  ends_stem k →
  y :: mem = modifier_text m ++ k :: rest →
  read_size pl y (Cursor off mem)
  = Normal (sized_integer pl m, k,
            Cursor (off + Z.of_nat (length (modifier_text m))) rest).
Proof.
  intros (_ & _ & _ & _ & Hh & Hl & HL & Hz) Heq. unfold read_size.
  destruct m; injection Heq as -> ->;
    repeat (case_decide; try congruence); simpl;
    repeat (case_decide; try congruence); simpl;
    unfold sized_integer, sizeof_int32_t, sizeof_int64_t in *;
    repeat (case_decide; try congruence);
    do 3 f_equal; lia.
Qed.

Lemma stem_head m k rest :
  ends_stem k →
  ∃ y tl, modifier_text m ++ k :: rest = y :: tl
          ∧ is_digit y = false ∧ y ≠ "."%char ∧ y ≠ "*"%char
          ∧ y ≠ "%"%char.
Proof.
  intros (? & ? & ? & ? & _). destruct m; eexists _, _; by repeat split.
Qed.

Lemma precision_stem pr m k off rest x tl :
  ends_stem k →
  match pr with Some ds => forallb is_digit ds | None => true end = true →
  x :: tl = precision_text pr ++ modifier_text m ++ k :: rest →
  ∃ y tl',
    y :: tl' = modifier_text m ++ k :: rest
    ∧ (if decide (x = "."%char)
       then deref_incr (Cursor off tl) ≫= λ '(c, p),
              if decide (c = "*"%char) then mret None
              else skip_digits c (p_off p) (p_mem p) ≫= λ r, mret (Some r)
       else mret (Some (x, Cursor off tl)))
      = Normal (Some (y, Cursor (off + Z.of_nat (length (precision_text pr)))
                           tl')).
Proof.
  intros Hk Hds Heq.
  destruct (stem_head m k rest Hk) as (y & tl' & Hy & Hdig & Hdot & Hstar & _).
  exists y, tl'. split; [done|].
  destruct pr as [ds|]; simpl in Heq.
  - injection Heq as -> ->. rewrite decide_True by done.
    rewrite Hy. destruct (ds ++ y :: tl') as [|c mem] eqn:Hc.
    { by destruct ds. }
    simpl. rewrite (decide_False (P := c = "*"%char)); last first.
    { intros ->. destruct ds as [|d ds]; simpl in *.
      - injection Hc as Hc _. by rewrite Hc in Hstar.
      - injection Hc as Hc _. rewrite Hc in Hds.
        by apply andb_true_iff in Hds as [? _]. }
    rewrite (skip_digits_run ds c mem (off + 1) y tl') by done.
    simpl. do 4 f_equal. rewrite Nat2Z.inj_succ. lia.
  - rewrite Hy in Heq. injection Heq as -> ->.
    rewrite decide_False by done. simpl. by rewrite Z.add_0_r.
Qed.

Lemma after_width_stem pr m k rest :
  ends_stem k →
  ∃ x tl, precision_text pr ++ modifier_text m ++ k :: rest = x :: tl
          ∧ is_digit x = false ∧ x ≠ "*"%char ∧ x ≠ "%"%char.
Proof.
  intros Hk. destruct pr as [ds|]; simpl.
  - by eexists _, _.
  - destruct (stem_head m k rest Hk) as (y & tl & -> & ? & ? & ? & ?).
    by eexists _, _.
Qed.

(** One turn of the second loop on a width, a precision and a modifier
    followed by [k]: the turn breaks when the text is too long for the
    [format] field or the format block gives [k] no kind. *)
Lemma classify_stem pl buf w pr m k off rest st a done more c mem :
  forallb is_digit w = true →
  match pr with Some ds => forallb is_digit ds | None => true end = true →
  ends_stem k →
  c :: mem = w ++ precision_text pr ++ modifier_text m ++ k :: rest →
  nas st = done ++ a :: more →
  cn st + 1 = Z.of_nat (length done) →
  FORMAT_LENGTH ≤ 2 + Z.of_nat (length w)
                  + Z.of_nat (length (precision_text pr))
                  + Z.of_nat (length (modifier_text m))
  ∨ conversion_type pl k (sized_integer pl m) = tidyFormatType_UNKNOWN →
  ∃ st', classify_specifier pl buf c (Cursor off mem) st = Normal (Break st').
Proof.
  intros Hw Hp Hk Heq Hnas Hcn Hbad.
  unfold classify_specifier.
  destruct (after_width_stem pr m k rest Hk) as (x & tl & Hx & Hxd & Hxs & _).
  rewrite Hx in Heq.
  rewrite decide_False; last first.
  { intros ->. destruct w as [|d ds]; simpl in *.
    - injection Heq as Heq _. by rewrite <- Heq in Hxs.
    - injection Heq as Heq _. rewrite <- Heq in Hw.
      by apply andb_true_iff in Hw as [? _]. }
  cbn [p_off p_mem].
  rewrite (skip_digits_run w c mem off x tl) by done. simpl.
  destruct (precision_stem pr m k (off + Z.of_nat (length w)) rest x tl)
    as (y & tl' & Hy & ->); [done | done | done |]. simpl.
  rewrite Hnas, update_current_middle by done. simpl.
  rewrite (read_size_stem pl m k _ rest y tl') by done. simpl.
  rewrite update_current_middle by done. simpl.
  rewrite update_current_middle by done. simpl.
  rewrite update_current_middle by done. simpl.
  case_decide as Hlong; [by eexists|].
  rewrite update_current_middle by done. simpl.
  rewrite current_type_middle by done. simpl.
  case_decide as Hknown; [by eexists|].
  destruct Hbad as [Hbad|Hbad]; [|done]. lia.
Qed.

(** A format string on which the second pass breaks at a specifier
    that follows well-formed text is scanned to the failure status. *)
Lemma BuildArgArray_break pl alloc ps c mem fmt ap :
  forallb (well_formed pl) ps = true → c ≠ "%"%char →
  c_buffer fmt = render ps ++ "%"%char :: c :: mem →
  (count_pass (c_buffer fmt) 0).2 = None →
  (∀ off st done a more,
     nas st = done ++ a :: more → cn st + 1 = Z.of_nat (length done) →
     ∃ st', classify_specifier pl (c_buffer fmt) c (Cursor off mem) st
            = Normal (Break st')) →
  ∃ r number,
    BuildArgArray pl alloc fmt ap = Normal r
    ∧ returned r = None ∧ rv_out r = -1
    ∧ 0 < number
    ∧ heap r = if alloc number then [EvAlloc number; EvFree]
               else [EvAlloc number].
Proof.
  intros Hps Hpct Hbuf Hcount Hbreak.
  unfold BuildArgArray. cbv zeta.
  set (buf := c_buffer fmt) in *.
  destruct (count_pass buf 0) as [number flag] eqn:Hnumber.
  simpl in Hcount. subst flag.
  assert (Z.of_nat (length (specifiers ps)) < number) as Hmore.
  { rewrite Hbuf in Hnumber.
    rewrite (count_pass_pieces pl) in Hnumber by done.
    rewrite count_pass_percent, count_pass_shift in Hnumber by done.
    injection Hnumber as <- _.
    pose proof (count_pass_nonneg mem). lia. }
  exists (if alloc number
          then {| returned := None; rv_out := -1;
                  heap := [EvAlloc number; EvFree] |}
          else {| returned := None; rv_out := -1; heap := [EvAlloc number] |}),
         number.
  rewrite decide_False by lia.
  destruct (alloc number); simpl; [|repeat split; lia].
  split; [|repeat split; lia].
  pose proof (render_length ps) as Hlen.
  assert (length buf = (length ps + S (length buf - length ps - 1))%nat)
    as Hfuel.
  { rewrite Hbuf, !length_app. simpl. lia. }
  rewrite Hfuel.
  replace (Z.to_nat number)
    with (length (specifiers ps) + (Z.to_nat number - length (specifiers ps)))%nat
    by lia.
  rewrite replicate_add.
  destruct (Z.to_nat number - length (specifiers ps))%nat as [|more] eqn:Hroom;
    [lia|].
  rewrite Hbuf at 3.
  pose proof (classify_pass_pieces pl buf ps
                (S (length buf - length ps - 1)) 0
                ("%"%char :: c :: mem) []
                (replicate (S more) fresh_arg) 0 Hps)
    as Hclass.
  cbn [app length] in Hclass. change (Z.of_nat 0 - 1) with (-1) in Hclass.
  rewrite Hclass.
  rewrite classify_pass_percent by done.
  destruct (Hbreak (0 + Z.of_nat (length (render ps)) + 1 + 1)
              (ScanState (Z.of_nat (0 + length (specifiers ps)) - 1)
                 (descriptors pl buf 0 ps ++ replicate (S more) fresh_arg) 0)
              (descriptors pl buf 0 ps) fresh_arg (replicate more fresh_arg))
    as (st' & Hst').
  { done. }
  { simpl. rewrite descriptors_length. lia. }
  rewrite Hst'. simpl.
  apply classify_specifier_break in Hst'.
  rewrite decide_True by lia. by rewrite Hst'.
Qed.

Lemma no_conversion_ends_stem k : no_conversion k = true → ends_stem k.
Proof.
  unfold no_conversion. rewrite andb_true_iff, negb_true_iff.
  rewrite bool_decide_eq_true. intros [Hd Hk].
  split; [done|].
  repeat split; intros ->; apply Hk; rewrite list_elem_of_In; simpl; tauto.
Qed.

Lemma no_conversion_unknown pl k t :
  no_conversion k = true →
  conversion_type pl k t = tidyFormatType_UNKNOWN.
Proof.
  unfold no_conversion. rewrite andb_true_iff, bool_decide_eq_true.
  intros [_ Hk]. unfold conversion_type.
  repeat match goal with
         | |- context [decide (k = ?x)] =>
             destruct (decide (k = x)) as [->|_];
             [try done; exfalso; apply Hk; rewrite list_elem_of_In;
              simpl; tauto|]
         end.
  done.
Qed.

Lemma no_conversion_NUL : no_conversion NUL = true.
Proof. reflexivity. Qed.

(** X5.  A specifier that follows well-formed text and has, behind its
    width, precision and length modifier, a character that is no
    conversion the scanner knows (a flag such as [-], another letter,
    or the end of the string) makes the scan fail: status -1, no
    array, and the array that was allocated is freed again. *)
Theorem unknown_conversion_fails pl alloc ps w pr m tail ap :
  let fmt := string_of_list_ascii
               (render ps ++ "%"%char :: w ++ precision_text pr
                ++ modifier_text m ++ tail) in
  forallb (well_formed pl) ps = true →
  forallb is_digit w = true →
  match pr with Some ds => forallb is_digit ds | None => true end = true →
  match tail with [] => true | k :: _ => no_conversion k end = true →
  lone_percent_at_end (list_ascii_of_string fmt) = false →
  ∃ r number,
    BuildArgArray pl alloc fmt ap = Normal r
    ∧ returned r = None ∧ rv_out r = -1
    ∧ 0 < number
    ∧ heap r = if alloc number then [EvAlloc number; EvFree]
               else [EvAlloc number].
Proof.
  intros fmt Hps Hw Hp Htail Hlone.
  pose proof (count_pass_well_formed _ 0 Hlone) as Hcount.
  assert (∃ k rest, tail ++ [NUL] = k :: rest ∧ no_conversion k = true)
    as (k & rest & Hk & Hno).
  { destruct tail as [|k tail]; simpl; eexists _, _; split; try done. }
  pose proof (no_conversion_ends_stem k Hno) as Hstem.
  assert (c_buffer fmt
          = render ps ++ "%"%char :: w ++ precision_text pr
              ++ modifier_text m ++ k :: rest) as Hbuf.
  { unfold c_buffer, fmt. rewrite list_ascii_of_string_of_list_ascii.
    rewrite <- Hk. rewrite <- !app_assoc. simpl. by rewrite <- !app_assoc. }
  destruct (after_width_stem pr m k rest Hstem) as (x & tl & Hx & Hxd & Hxs & Hxp).
  assert (∃ c mem, w ++ precision_text pr ++ modifier_text m ++ k :: rest
                   = c :: mem ∧ c ≠ "%"%char) as (c & mem & Hc & Hpct).
  { rewrite Hx. destruct w as [|d ds]; simpl; eexists _, _; split; try done.
    simpl in Hw. apply andb_true_iff in Hw as [Hd _]. by intros ->. }
  rewrite Hc in Hbuf.
  apply (BuildArgArray_break pl alloc ps c mem fmt ap Hps Hpct Hbuf Hcount).
  intros off st filled a more Hnas Hcn.
  apply (classify_stem pl _ w pr m k off rest st a filled more c mem);
    try done.
  right. by apply no_conversion_unknown.
Qed.

Lemma unknown_conversion_fails_witness :
  string_of_list_ascii
    (render [Spec (plain_spec no_modifier conv_s); Text " "%char]
     ++ "%"%char :: [] ++ precision_text None ++ modifier_text no_modifier
     ++ ["-"; "5"; "d"]%char) = "%s %-5d"%string
  ∧ ∃ r number,
      BuildArgArray LP64 (λ _, true) "%s %-5d" [va_char_p "x"; va_int 3]
        = Normal r
      ∧ returned r = None ∧ rv_out r = -1
      ∧ 0 < number
      ∧ heap r = [EvAlloc number; EvFree].
Proof.
  split; [reflexivity|].
  apply (unknown_conversion_fails LP64 (λ _, true)
           [Spec (plain_spec no_modifier conv_s); Text " "%char]
           [] None no_modifier ["-"; "5"; "d"]%char); reflexivity.
Defined.

Lemma conversion_char_ends_stem cv : ends_stem (conversion_char cv).
Proof. destruct cv; by repeat split. Qed.

(** X6.  A specifier that follows well-formed text and whose text,
    the [%] included, has [FORMAT_LENGTH] characters or more makes the
    scan fail, whatever its conversion: status -1, no array, and the
    array that was allocated is freed again. *)
Theorem oversized_specifier_fails pl alloc ps s rest ap :
  let fmt := string_of_list_ascii
               (render ps ++ piece_text (Spec s) ++ rest) in
  forallb (well_formed pl) ps = true →
  forallb is_digit (width s) = true →
  match precision s with Some ds => forallb is_digit ds | None => true end
    = true →
  FORMAT_LENGTH ≤ Z.of_nat (length (piece_text (Spec s))) →
  lone_percent_at_end (list_ascii_of_string fmt) = false →
  ∃ r number,
    BuildArgArray pl alloc fmt ap = Normal r
    ∧ returned r = None ∧ rv_out r = -1
    ∧ 0 < number
    ∧ heap r = if alloc number then [EvAlloc number; EvFree]
               else [EvAlloc number].
Proof.
  intros fmt Hps Hw Hp Hlong Hlone.
  pose proof (count_pass_well_formed _ 0 Hlone) as Hcount.
  pose proof (conversion_char_ends_stem (conv s)) as Hstem.
  assert (c_buffer fmt
          = render ps ++ "%"%char :: specifier_body s ++ rest ++ [NUL])
    as Hbuf.
  { unfold c_buffer, fmt. rewrite list_ascii_of_string_of_list_ascii.
    rewrite <- !app_assoc. simpl. by rewrite <- ?app_assoc. }
  destruct (body_nonempty s) as (c & mem0 & Hbody).
  assert (c :: mem0 ++ rest ++ [NUL] = specifier_body s ++ rest ++ [NUL])
    as Hc by (by rewrite Hbody).
  destruct (body_head s (rest ++ [NUL]) c (mem0 ++ rest ++ [NUL]) Hw Hc)
    as [_ Hpct].
  rewrite <- Hc in Hbuf.
  apply (BuildArgArray_break pl alloc ps c _ fmt ap Hps Hpct Hbuf Hcount).
  intros off st filled a more Hnas Hcn.
  apply (classify_stem pl _ (width s) (precision s) (modifier s)
           (conversion_char (conv s)) off (rest ++ [NUL]) st a filled more);
    try done.
  - by rewrite Hc, body_split.
  - left. simpl in Hlong. rewrite body_length in Hlong. lia.
Qed.

Lemma oversized_specifier_fails_witness :
  string_of_list_ascii
    (render []
     ++ piece_text (Spec {| width := list_ascii_of_string "0000000000000000020";
                            precision := None; modifier := no_modifier;
                            conv := conv_d |})
     ++ []) = "%0000000000000000020d"%string
  ∧ ∃ r number,
      BuildArgArray LP64 (λ _, true) "%0000000000000000020d" [va_int 3]
        = Normal r
      ∧ returned r = None ∧ rv_out r = -1
      ∧ 0 < number
      ∧ heap r = [EvAlloc number; EvFree].
Proof.
  split; [reflexivity|].
  apply (oversized_specifier_fails LP64 (λ _, true) []
           {| width := list_ascii_of_string "0000000000000000020";
              precision := None; modifier := no_modifier; conv := conv_d |}
           []); (reflexivity || (unfold FORMAT_LENGTH; simpl; lia)).
Defined.

(** * Further properties of the iterator and the accessors *)

(** ** The iterator *)

Lemma cast_size_t_small pl v :
  0 ≤ v < 2 ^ size_t_bits pl → cast_size_t pl v = v.
Proof. intros Hv. unfold cast_size_t. by apply Z.mod_small. Qed.

Lemma int_fits_size_t pl :
  0 < sizeof_int pl ≤ sizeof_size_t pl →
  0 ≤ INT_MAX pl < 2 ^ size_t_bits pl - 1.
Proof.
  unfold INT_MAX, int_bits, size_t_bits. intros Hsize.
  assert (2 ^ (8 * sizeof_int pl - 1) < 2 ^ (8 * sizeof_size_t pl)).
  { apply Z.pow_lt_mono_r; lia. }
  assert (0 < 2 ^ (8 * sizeof_int pl - 1)) by (apply Z.pow_pos_nonneg; lia).
  lia.
Qed.

(** A turn of the iterator inside the range. *)
Lemma getNextMessageArgument_in_range pl m i :
  1 ≤ i ≤ argcount m → argcount m < 2 ^ size_t_bits pl - 1 →
  getNextMessageArgument pl m i
  = (i - 1, if decide (i < argcount m) then i + 1 else 0).
Proof.
  intros Hi HN. unfold getNextMessageArgument. cbv zeta.
  rewrite !(cast_size_t_small pl i), !(cast_size_t_small pl (argcount m))
    by lia.
  rewrite decide_True by lia.
  rewrite (cast_size_t_small pl (i - 1)), (cast_size_t_small pl (i + 1)),
    (cast_size_t_small pl 0) by lia.
  repeat case_decide; (done || lia).
Qed.

Lemma traverse_unfold pl k m i :
  traverse pl (S k) m i
  = if decide (i = 0) then Some []
    else let '(item, iter') := getNextMessageArgument pl m i in
         cons item <$> traverse pl k m iter'.
Proof. reflexivity. Qed.

Lemma traverse_exhausted pl k m : traverse pl k m 0 = Some [].
Proof. by destruct k. Qed.

Lemma traverse_from pl m k i :
  argcount m < 2 ^ size_t_bits pl - 1 → 1 ≤ i ≤ argcount m →
  Z.of_nat k = argcount m - i + 1 →
  traverse pl k m i = Some (map Z.of_nat (seq (Z.to_nat (i - 1)) k)).
Proof.
  intros HN. revert i. induction k as [|k IH]; intros i Hi Hk; [lia|].
  rewrite traverse_unfold, decide_False by lia.
  rewrite getNextMessageArgument_in_range by done.
  case_decide as Hlast.
  - rewrite IH by lia. simpl. do 2 f_equal; [lia|].
    by replace (Z.to_nat (i + 1 - 1)) with (S (Z.to_nat (i - 1))) by lia.
  - rewrite traverse_exhausted. simpl.
    replace k with 0%nat by lia. simpl. do 2 f_equal. lia.
Qed.

(** X7.  The loop of a client over the iterator, started with
    [getMessageArguments], visits the arguments 0, 1, ...,
    [argcount - 1], each once and in this order, and then finds the
    iterator at 0.  On a record with no arguments, and on one whose
    scan failed ([argcount] -1), it visits nothing. *)
Theorem traversal_visits_each_argument_once pl m :
  0 < sizeof_int pl ≤ sizeof_size_t pl → argcount m ≤ INT_MAX pl →
  traverse pl (Z.to_nat (argcount m)) m (getMessageArguments pl m)
  = Some (map Z.of_nat (seq 0 (Z.to_nat (argcount m)))).
Proof.
  intros Hsize Hint. pose proof (int_fits_size_t pl Hsize) as Hfits.
  unfold getMessageArguments. case_decide as Hpos.
  - rewrite (cast_size_t_small pl 1) by lia.
    rewrite (traverse_from pl m _ 1); [done|lia|lia|lia].
  - unfold cast_size_t. rewrite Zmod_0_l.
    replace (Z.to_nat (argcount m)) with 0%nat by lia. reflexivity.
Qed.

Lemma traversal_visits_each_argument_once_witness :
  ∃ m log,
    tidyMessageCreateInitV LP64 sample_ext quiet_doc 600 5 10 351
      [va_char_p "alt"] = Normal (m, log)
    ∧ traverse LP64 1 m (getMessageArguments LP64 m) = Some [0].
Proof.
  eexists _, _. split; [reflexivity|].
  match goal with
  | |- traverse _ _ ?m _ = _ =>
      exact (traversal_visits_each_argument_once LP64 m
               ltac:(simpl; lia) ltac:(by vm_compute))
  end.
Defined.

(** X8.  On a record whose scan failed, [argcount] is -1 and the
    comparison of the iterator with it is made in [size_t]:
    [getNextMessageArgument] takes every iterator from 1 up to the
    largest [size_t] but one as in range, hands out the argument
    before it and moves on to the next.  Only [getMessageArguments],
    which answers 0, keeps a client from arguments that are not there. *)
Theorem failed_scan_leaves_iterator_unbounded pl m iter :
  0 < sizeof_size_t pl → argcount m = -1 →
  1 ≤ iter < 2 ^ size_t_bits pl - 1 →
  getMessageArguments pl m = 0
  ∧ getNextMessageArgument pl m iter = (iter - 1, iter + 1).
Proof.
  intros Hsize Hcount Hiter. split.
  - unfold getMessageArguments. rewrite decide_False by lia.
    unfold cast_size_t. by rewrite Zmod_0_l.
  - assert (cast_size_t pl (argcount m) = 2 ^ size_t_bits pl - 1) as Hmax.
    { unfold cast_size_t. symmetry.
      apply (Z.mod_unique_pos _ _ (-1)); lia. }
    unfold getNextMessageArgument. cbv zeta.
    rewrite Hmax, (cast_size_t_small pl iter) by lia.
    rewrite decide_True by lia.
    rewrite (cast_size_t_small pl (iter - 1)),
      (cast_size_t_small pl (iter + 1)) by lia.
    by rewrite decide_True by lia.
Qed.

Lemma failed_scan_leaves_iterator_unbounded_witness :
  ∃ m log,
    tidyMessageCreateInitV LP64 starred_ext quiet_doc 700 5 10 351
      [va_int 3; va_int 4] = Normal (m, log)
    ∧ arguments m = None
    ∧ getMessageArguments LP64 m = 0
    ∧ getNextMessageArgument LP64 m 7 = (6, 8).
Proof.
  eexists _, _. split; [reflexivity|]. split; [reflexivity|].
  match goal with
  | |- getMessageArguments _ ?m = _ ∧ _ =>
      exact (failed_scan_leaves_iterator_unbounded LP64 m 7
               ltac:(done) ltac:(reflexivity) ltac:(by vm_compute))
  end.
Defined.

(** ** The typed getters *)

(** Every getter starts with the same two steps. *)
Lemma accessor_argument {A} m argNum (k : printfArg → access A) r :
  (assert (bool_decide (argNum ≤ argcount m)) ≫= λ _,
     argument_at m argNum ≫= k) = Returned r →
  ∃ a, argNum ≤ argcount m ∧ argument_at m argNum = Returned a
       ∧ k a = Returned r.
Proof.
  unfold assert. case_bool_decide as Hle; simpl; [|done].
  destruct (argument_at m argNum) as [a| |]; simpl; [|done|done].
  intros Hk. by exists a.
Qed.


Lemma getter_of_argument {A} m argNum a (k : printfArg → access A) :
  argNum ≤ argcount m → argument_at m argNum = Returned a →
  (assert (bool_decide (argNum ≤ argcount m)) ≫= λ _,
     argument_at m argNum ≫= k) = k a.
Proof.
  intros Hle Ha. unfold assert. rewrite bool_decide_eq_true_2 by done.
  simpl. by rewrite Ha.
Qed.

Lemma uint_switch_valid pl a v :
  uint_switch pl a = Returned (v, yes) →
  type a ∈ [tidyFormatType_UINTN; tidyFormatType_UINT16;
            tidyFormatType_UINT32; tidyFormatType_UINT64].
Proof.
  unfold uint_switch. rewrite list_elem_of_In.
  destruct (type a); simpl; intros H; try tauto;
    repeat case_decide; by inversion H.
Qed.

Lemma int_switch_valid pl a v :
  int_switch pl a = Returned (v, yes) →
  type a ∈ [tidyFormatType_INTN; tidyFormatType_INT16;
            tidyFormatType_INT32; tidyFormatType_INT64;
            tidyFormatType_UINTN; tidyFormatType_UINT16;
            tidyFormatType_UINT32; tidyFormatType_UINT64].
Proof.
  unfold int_switch. rewrite list_elem_of_In.
  destruct (type a); simpl; intros H; try tauto;
    repeat case_decide; by inversion H.
Qed.

Lemma switch_checked {A} (sw : access (A * Bool)) r :
  (sw ≫= λ '(result, typeIsValid),
     assert (bool_decide (typeIsValid = yes)) ≫= λ _, mret result)
  = Returned r →
  sw = Returned (r, yes).
Proof.
  destruct sw as [[result valid]| |]; simpl; [|done|done].
  unfold assert. case_bool_decide as Hv; simpl; [|done].
  intros [= <-]. by rewrite Hv.
Qed.

(** X9.  A typed getter returns a value only for an argument whose
    kind, as [getArgType] reports it, is one the getter is for:
    [getArgValueString] for the string kind, [getArgValueDouble] for
    the double kind, [getArgValueUInt] for the four unsigned kinds,
    [getArgValueInt] for the eight integer kinds. *)
Theorem typed_getters_agree_with_getArgType pl m argNum :
  (∀ s, getArgValueString m argNum = Returned s →
        getArgType m argNum = Returned tidyFormatType_STRING)
  ∧ (∀ d, getArgValueDouble m argNum = Returned d →
          getArgType m argNum = Returned tidyFormatType_DOUBLE)
  ∧ (∀ v, getArgValueUInt pl m argNum = Returned v →
          ∃ t, getArgType m argNum = Returned t
               ∧ t ∈ [tidyFormatType_UINTN; tidyFormatType_UINT16;
                      tidyFormatType_UINT32; tidyFormatType_UINT64])
  ∧ (∀ v, getArgValueInt pl m argNum = Returned v →
          ∃ t, getArgType m argNum = Returned t
               ∧ t ∈ [tidyFormatType_INTN; tidyFormatType_INT16;
                      tidyFormatType_INT32; tidyFormatType_INT64;
                      tidyFormatType_UINTN; tidyFormatType_UINT16;
                      tidyFormatType_UINT32; tidyFormatType_UINT64]).
Proof.
  assert (∀ a, argNum ≤ argcount m → argument_at m argNum = Returned a →
               getArgType m argNum = Returned (type a)) as Htype.
  { intros a Hle Ha. unfold getArgType.
    by rewrite (getter_of_argument m argNum a (λ a, mret (type a))). }
  repeat split.
  - intros s Hs. apply accessor_argument in Hs as (a & Hle & Ha & Hk).
    rewrite (Htype a) by done. revert Hk. unfold assert.
    case_bool_decide as Ht; simpl; [|done]. by rewrite Ht.
  - intros d Hd. apply accessor_argument in Hd as (a & Hle & Ha & Hk).
    rewrite (Htype a) by done. revert Hk. unfold assert.
    case_bool_decide as Ht; simpl; [|done]. by rewrite Ht.
  - intros v Hv. apply accessor_argument in Hv as (a & Hle & Ha & Hk).
    apply switch_checked, uint_switch_valid in Hk.
    exists (type a). by rewrite (Htype a).
  - intros v Hv. apply accessor_argument in Hv as (a & Hle & Ha & Hk).
    apply switch_checked, int_switch_valid in Hk.
    exists (type a). by rewrite (Htype a).
Qed.

(** ** Records as they are created *)













(** The argument of a [%u]: the scanner gives it the native signed
    kind, [getArgValueInt] returns it and [getArgValueUInt] stops at
    its assertion. *)
Example unsigned_conversion_is_read_as_int :
  ∃ m log,
    tidyMessageCreateInitV LP64 starred_ext quiet_doc 702 5 10 351
      [va_int 3] = Normal (m, log)
    ∧ getArgType m 0 = Returned tidyFormatType_INTN
    ∧ getArgValueInt LP64 m 0 = Returned 3
    ∧ getArgValueUInt LP64 m 0 = AssertionFailed.
Proof. eexists _, _. by repeat split. Qed.

(** X13.  On a record whose array has [argcount] descriptors, the
    index alone decides how [getArgType] and [getArgFormat] end: above
    [argcount] they stop at the assertion; from 0 below [argcount]
    they return the kind and the text of the descriptor at the index;
    at [argcount] itself and below 0 the assertion lets the index pass
    and the read is outside the array. *)
Theorem index_decides_the_outcome m arr i :
  arguments m = Some arr → argcount m = Z.of_nat (length arr) →
  (argcount m < i →
     getArgType m i = AssertionFailed ∧ getArgFormat m i = AssertionFailed)
  ∧ (0 ≤ i < argcount m →
     ∃ a, arr !! Z.to_nat i = Some a
          ∧ getArgType m i = Returned (type a)
          ∧ getArgFormat m i = Returned (format a))
  ∧ (i < 0 ∨ i = argcount m →
     getArgType m i = Undefined ReadPastBuffer
     ∧ getArgFormat m i = Undefined ReadPastBuffer).
Proof.
  intros Harr Hcount. unfold getArgType, getArgFormat, assert.
  split; [|split].
  - intros Hi. by rewrite bool_decide_eq_false_2 by lia.
  - intros Hi.
    destruct (lookup_lt_is_Some_2 arr (Z.to_nat i)) as [a Hlook]; [lia|].
    exists a. split; [done|].
    rewrite bool_decide_eq_true_2 by lia. simpl.
    by rewrite (argument_at_lookup m arr i a) by (done || lia).
  - intros Hi. rewrite bool_decide_eq_true_2 by lia. simpl.
    assert (argument_at m i = Undefined ReadPastBuffer) as ->; [|done].
    unfold argument_at. rewrite Harr.
    destruct Hi as [Hi| ->]; [by rewrite decide_False by lia|].
    rewrite decide_True by lia.
    by rewrite Hcount, Nat2Z.id, lookup_ge_None_2.
Qed.

Lemma index_decides_the_outcome_witness :
  ∃ m log,
    tidyMessageCreateInitV LP64 sample_ext quiet_doc 600 5 10 351
      [va_char_p "alt"] = Normal (m, log)
    ∧ getArgType m 2 = AssertionFailed
    ∧ getArgType m 0 = Returned tidyFormatType_STRING
    ∧ getArgType m (-1) = Undefined ReadPastBuffer.
Proof.
  eexists _, _. split; [reflexivity|].
  split; [|split; reflexivity].
  match goal with
  | |- getArgType ?m _ = _ =>
      exact (proj1 (proj1 (index_decides_the_outcome m _ 2 eq_refl eq_refl)
                      ltac:(by vm_compute)))
  end.
Defined.

(** * Further properties of message creation *)












